(** * Shor's algorithm for N = 15: circuit builders and classical post-processing

    A shallow embedding of [shors-algorithm-implementation.py].  The circuit
    builders ([c_amod15], [qft_dagger], [create_shors_circuit]) become pure
    functions that produce the instruction list Qiskit would record; the
    classical part ([find_period], [shor_algorithm]) runs in a small
    state-and-exception monad whose state holds the random source and the log of
    backend executions. *)

From Stdlib Require Import ZArith List String Ascii Bool Lia Permutation Sorted.
From Stdlib Require Import DecimalString.
Import ListNotations.
Local Open Scope string_scope.
Local Open Scope list_scope.
Local Open Scope Z_scope.

(** ** Python values and exceptions *)

Inductive exn : Type :=
| ValueError (msg : string)
| OverflowError (msg : string)
| ZeroDivisionError (msg : string).

(** A computation that either raises or returns. *)
Definition throws (A : Type) : Type := (exn + A)%type.

Definition raise {A : Type} (e : exn) : throws A := inl e.
Definition returns {A : Type} (v : A) : throws A := inr v.

Definition bind_throws {A B : Type} (c : throws A) (k : A -> throws B) : throws B :=
  match c with
  | inl e => inl e
  | inr v => k v
  end.

Declare Scope throws_scope.
Delimit Scope throws_scope with throws.
Notation "'let?' x ':=' c 'in' k" := (bind_throws c (fun x => k))
  (at level 10, x name, c at level 100, k at level 200) : throws_scope.
Local Open Scope throws_scope.

Module Py.

(** [x in xs] on a list of integers. *)
Definition contains (x : Z) (xs : list Z) : bool := existsb (Z.eqb x) xs.

(** [range(n)]. *)
Definition range (n : nat) : list nat := seq 0 n.

(** [range(lo, hi)]. *)
Definition range2 (lo hi : nat) : list nat := seq lo (hi - lo).

(** [for i in range(n): s = body(i, s)], the loop state threaded through. *)
Definition for_range {S : Type} (n : nat) (body : nat -> S -> S) (s : S) : S :=
  fold_left (fun acc i => body i acc) (range n) s.

(** The same loop when the body may raise: the first exception ends it. *)
Definition for_range_t {S : Type} (n : nat) (body : nat -> S -> throws S)
    (s : S) : throws S :=
  fold_left (fun acc i => bind_throws acc (body i)) (range n) (returns s).

(** [float(k)] for an integer [k = 2**e]: exact while the exponent fits a
    double, [OverflowError] from 2**1024 on. *)
Definition float_of_pow2 (e : nat) : throws Z :=
  if (e <=? 1023)%nat then returns (2 ^ Z.of_nat e)
  else raise (OverflowError "int too large to convert to float").

End Py.

(** ** Circuits

    A [QuantumCircuit] is the ordered list of instructions recorded by the
    builder calls.  [qc_append] is [QuantumCircuit.append] of a sub-circuit
    on the listed qubits; its flag says whether the sub-circuit went through
    [.control()] first, in which case the first listed qubit is the control.
    [qc_measure] is one call of [measure] on a list of qubits and a list
    of classical bits; Qiskit records such a call as one one-qubit measure
    per listed qubit, which [entries_recorded] counts.
    [qc_reset] belongs to the instruction set of a [QuantumCircuit]; none of
    the builders below emits it. *)

(** The rotation angle [-np.pi/float(d)], kept symbolically by its divisor. *)
Inductive angle : Type :=
| neg_pi_over (d : Z).

#[warnings="-register-all"]
Inductive instruction : Type :=
| qc_h (qubit : nat)
| qc_x (qubit : nat)
| qc_swap (qubit1 qubit2 : nat)
| qc_cp (theta : angle) (control_qubit target_qubit : nat)
| qc_measure (qubits clbits : list nat)
| qc_reset (qubit : nat)
| qc_append (controlled : bool) (width : nat) (body : list instruction)
            (qargs : list nat).

Record QuantumCircuit : Type := mkCircuit {
  num_qubits : nat;
  num_clbits : nat;
  data : list instruction
}.

Definition new_circuit (qubits clbits : nat) : QuantumCircuit :=
  mkCircuit qubits clbits [].

(** Every builder method appends one instruction at the end. *)
Definition emit (g : instruction) (qc : QuantumCircuit) : QuantumCircuit :=
  mkCircuit (num_qubits qc) (num_clbits qc) (data qc ++ [g]).

Definition h (q : nat) := emit (qc_h q).
Definition x (q : nat) := emit (qc_x q).
Definition swap (q1 q2 : nat) := emit (qc_swap q1 q2).
Definition cp (theta : angle) (c t : nat) := emit (qc_cp theta c t).
Definition measure (qs cs : list nat) := emit (qc_measure qs cs).

(** [U.control()]: the same body under one extra control qubit. *)
Definition control (U : QuantumCircuit) : bool * nat * list instruction :=
  (true, S (num_qubits U), data U).

(** A plain circuit used as an instruction. *)
Definition to_instruction (U : QuantumCircuit) : bool * nat * list instruction :=
  (false, num_qubits U, data U).

Definition append (g : bool * nat * list instruction) (qargs : list nat) :=
  let '(c, w, b) := g in emit (qc_append c w b qargs).

Notation "qc '|>' f" := (f qc) (at level 45, left associativity, only parsing).

(** ** The modular-exponentiation oracle *)

Definition admissible_bases : list Z := [2; 4; 7; 8; 11; 13].

Definition unsupported_base : exn :=
  ValueError "'a' must be 2, 4, 7, 8, 11 or 13".

(** One pass of the loop body of [c_amod15]. *)
Definition c_amod15_iteration (a : Z) (U : QuantumCircuit) : QuantumCircuit :=
  let U := if Py.contains a [2; 13]
           then U |> swap 0 1 |> swap 1 2 |> swap 2 3 else U in
  let U := if Py.contains a [7; 8]
           then U |> swap 2 3 |> swap 1 2 |> swap 0 1 else U in
  let U := if Py.contains a [4; 11]
           then U |> swap 1 3 |> swap 0 2 else U in
  let U := if Py.contains a [7; 11; 13]
           then Py.for_range 4 (fun q U => U |> x q) U else U in
  U.

Definition c_amod15 (a : Z) (power : nat) : throws QuantumCircuit :=
  if negb (Py.contains a admissible_bases) then raise unsupported_base
  else
    let U := new_circuit 4 0 in
    let U := Py.for_range power (fun _iteration U => c_amod15_iteration a U) U in
    returns U.

(** ** The inverse quantum Fourier transform *)

Definition qft_dagger (n : nat) : throws QuantumCircuit :=
  let qc := new_circuit n 0 in
  let qc := Py.for_range (n / 2)
              (fun qubit qc => qc |> swap qubit (n - qubit - 1)) qc in
  let? qc := Py.for_range_t n (fun j qc =>
      let? qc := Py.for_range_t j (fun m qc =>
          let? d := Py.float_of_pow2 (j - m) in
          returns (qc |> cp (neg_pi_over d) m j)) qc in
      returns (qc |> h j)) qc in
  returns qc.

(** ** The phase-estimation circuit *)

Definition create_shors_circuit (a : Z) (n : Z) (counting_qubits : nat)
  : throws QuantumCircuit :=
  let total_qubits := (counting_qubits + 4)%nat in
  let qc := new_circuit total_qubits counting_qubits in
  let qc := Py.for_range counting_qubits (fun q qc => qc |> h q) qc in
  let qc := qc |> x counting_qubits in
  let? qc := Py.for_range_t counting_qubits (fun q qc =>
      let power := (2 ^ (counting_qubits - q - 1))%nat in
      let? U := c_amod15 a power in
      let controlled_u := control U in
      returns (qc |> append controlled_u
                 ([q] ++ Py.range2 counting_qubits (counting_qubits + 4)))) qc in
  let? iqft := qft_dagger counting_qubits in
  let qc := qc |> append (to_instruction iqft) (Py.range counting_qubits) in
  let qc := qc |> measure (Py.range counting_qubits) (Py.range counting_qubits) in
  returns qc.

(** ** Rationals as [fractions.Fraction] keeps them *)

Module Fraction.

Record t : Type := mk { numerator : Z; denominator : Z }.

(** [Fraction(p, q)]: lowest terms, the sign carried by the numerator. *)
Definition make (p q : Z) : throws t :=
  if q =? 0 then raise (ZeroDivisionError "Fraction(%s, 0)")
  else
    let g := Z.gcd p q in
    let g := if q <? 0 then - g else g in
    returns (mk (p / g) (q / g)).

Definition sub (u v : t) : throws t :=
  make (numerator u * denominator v - numerator v * denominator u)
       (denominator u * denominator v).

Definition abs (u : t) : t := mk (Z.abs (numerator u)) (denominator u).

Definition le (u v : t) : bool :=
  numerator u * denominator v <=? numerator v * denominator u.

(** The [while True] loop of [limit_denominator]; [None] is fuel running
    out, which [limit_denominator_loop_fuel] shows never happens from
    the fuel [limit_denominator] supplies. *)
Fixpoint limit_denominator_loop (fuel : nat) (max_denominator : Z)
    (p0 q0 p1 q1 n d : Z) : option (throws (Z * Z * Z * Z)) :=
  match fuel with
  | O => None
  | S fuel =>
      if d =? 0
      then Some (raise (ZeroDivisionError "integer division or modulo by zero"))
      else
        let a := n / d in
        let q2 := q0 + a * q1 in
        if q2 >? max_denominator then Some (returns (p0, q0, p1, q1))
        else limit_denominator_loop fuel max_denominator
               p1 q1 (p0 + a * p1) q2 d (n - a * d)
  end.

(** [self.limit_denominator(max_denominator)], after CPython's
    [fractions.py]. *)
Definition limit_denominator (self : t) (max_denominator : Z) : throws t :=
  if max_denominator <? 1
  then raise (ValueError "max_denominator should be at least 1")
  else if denominator self <=? max_denominator then returns self
  else
    match limit_denominator_loop (S (Z.abs_nat (denominator self)))
            max_denominator 0 1 1 0 (numerator self) (denominator self) with
    | None => returns self (* out of fuel: never reached *)
    | Some (inl e) => raise e
    | Some (inr (p0, q0, p1, q1)) =>
        if q1 =? 0
        then raise (ZeroDivisionError "integer division or modulo by zero")
        else
          let k := (max_denominator - q0) / q1 in
          let? bound1 := make (p0 + k * p1) (q0 + k * q1) in
          let? bound2 := make p1 q1 in
          let? d2 := sub bound2 self in
          let? d1 := sub bound1 self in
          if le (abs d2) (abs d1) then returns bound2 else returns bound1
    end.

End Fraction.

(** ** The period extractor *)

(** [int(output, 2)] on the digit strings a sampler returns as keys.
    Python also accepts surrounding blanks, a sign, a [0b] prefix and
    underscores between digits; such strings raise here, and every
    property below is about keys made of the digits 0 and 1 only. *)
Fixpoint binary_digits (s : string) (acc : Z) : throws Z :=
  match s with
  | EmptyString => returns acc
  | String "0" rest => binary_digits rest (2 * acc)
  | String "1" rest => binary_digits rest (2 * acc + 1)
  | String _ _ => raise (ValueError "invalid literal for int() with base 2")
  end.

Definition int_base2 (s : string) : throws Z :=
  match s with
  | EmptyString => raise (ValueError "invalid literal for int() with base 2")
  | _ => binary_digits s 0
  end.

(** A histogram [counts]: the dictionary in its iteration order. *)
Definition histogram : Type := list (string * nat).

(** [m / 2^s] rounded to the nearest integer, a tie going to the even
    one: how a double rounds. *)
Definition round_half_even (m s : Z) : Z :=
  let q := m / 2 ^ s in
  let r := m mod 2 ^ s in
  if 2 * r <? 2 ^ s then q
  else if 2 * r >? 2 ^ s then q + 1
  else if Z.even q then q else q + 1.

(** The number of binary digits of a non-negative integer. *)
Definition bit_length (m : Z) : Z := if m <=? 0 then 0 else Z.log2 m + 1.

(** [decimal / (2**counting_qubits)] for [decimal >= 0], read back by
    [Fraction(phase)]: the double nearest to the quotient, as a fraction
    in lowest terms.  A double keeps 53 significant bits and no bit below
    [2^-1074], so the lowest [dropped] bits of [decimal] are rounded away;
    none is when [decimal] has at most 53 bits and the register at most
    1074 qubits.  A quotient of [2^1024] or more raises [OverflowError] in
    Python; that takes a key over 1024 digits longer than the register
    and is not modelled. *)
Definition phase_of (decimal : Z) (counting_qubits : nat) : Fraction.t :=
  let dropped :=
    Z.max 0 (Z.max (bit_length decimal - 53)
                   (Z.of_nat counting_qubits - 1074)) in
  let rounded := round_half_even decimal dropped * 2 ^ dropped in
  let g := Z.gcd rounded (2 ^ Z.of_nat counting_qubits) in
  Fraction.mk (rounded / g) (2 ^ Z.of_nat counting_qubits / g).

(** The loop filling [measured_phases]. *)
Fixpoint collect_phases (counting_qubits : nat) (counts : histogram)
    (measured_phases : list (Fraction.t * nat))
  : throws (list (Fraction.t * nat)) :=
  match counts with
  | [] => returns measured_phases
  | (output, count) :: rest =>
      let? decimal := int_base2 output in
      let phase := phase_of decimal counting_qubits in
      collect_phases counting_qubits rest (measured_phases ++ [(phase, count)])
  end.

(** [measured_phases.sort(key=lambda x: x[1], reverse=True)]: a stable
    sort, larger counts first. *)
Fixpoint insert_by_count {A : Type} (e : A * nat) (l : list (A * nat))
  : list (A * nat) :=
  match l with
  | [] => [e]
  | e' :: l' =>
      if (snd e <? snd e')%nat then e' :: insert_by_count e l'
      else e :: e' :: l'
  end.

Definition sort_by_count_desc {A : Type} (l : list (A * nat)) : list (A * nat) :=
  fold_right insert_by_count [] l.

(** The test under [# Check if this is a valid period]. *)
Definition valid_period (a n r : Z) : bool :=
  (r mod 2 =? 0) && negb (a ^ (r / 2) mod n =? n - 1) && (a ^ r mod n =? 1).

(** The [for phase, _ in measured_phases[:5]] loop with its early return. *)
Fixpoint try_phases (a n : Z) (phases : list (Fraction.t * nat))
  : throws (option Z) :=
  match phases with
  | [] => returns None
  | (phase, _) :: rest =>
      let? frac := Fraction.limit_denominator phase n in
      let r := Fraction.denominator frac in
      if valid_period a n r then returns (Some r)
      else try_phases a n rest
  end.

(** Lines 85 to 104 of [find_period]: everything after [get_counts()]. *)
Definition extract_period (counts : histogram) (a n : Z) (counting_qubits : nat)
  : throws (option Z) :=
  let? measured_phases := collect_phases counting_qubits counts [] in
  let measured_phases := sort_by_count_desc measured_phases in
  try_phases a n (firstn 5 measured_phases).

(** ** Randomness and the simulator: the world the orchestrator runs in *)

(** The state a run can read and change: the source [random] draws from,
    how many draws were made, and every [execute(qc, backend, shots)]
    issued so far, in order. *)
Record world : Type := mkWorld {
  random_source : nat -> Z;
  random_draws : nat;
  executions : list (QuantumCircuit * nat)
}.

Definition M (A : Type) : Type := world -> throws A * world.

Definition ret {A : Type} (v : A) : M A := fun w => (returns v, w).

Definition bind {A B : Type} (c : M A) (k : A -> M B) : M B :=
  fun w =>
    match c w with
    | (inl e, w') => (inl e, w')
    | (inr v, w') => k v w'
    end.

Definition lift {A : Type} (c : throws A) : M A := fun w => (c, w).

Declare Scope world_scope.
Delimit Scope world_scope with world.
Notation "x <- c ;; k" := (bind c (fun x => k))
  (at level 61, c at next level, right associativity) : world_scope.
Local Open Scope world_scope.

(** The world after one draw from the random source. *)
Definition after_draw (w : world) : world :=
  mkWorld (random_source w) (S (random_draws w)) (executions w).

(** The world after one more execution on the simulator. *)
Definition after_execution (qc : QuantumCircuit) (shots : nat) (w : world)
  : world :=
  mkWorld (random_source w) (random_draws w) (executions w ++ [(qc, shots)]).

(** The value [random.randint(lo, hi)] takes in world [w], for [lo <= hi]:
    every integer of [lo..hi] is the draw of some source. *)
Definition drawn (lo hi : Z) (w : world) : Z :=
  lo + random_source w (random_draws w) mod (hi - lo + 1).

(** [str(k)] of an integer. *)
Definition str (k : Z) : string := NilZero.string_of_int (Z.to_int k).

(** The [ValueError] of [randrange(start, stop)] on an empty range, with
    the text [random.py] formats: start, stop and width. *)
Definition empty_range (start stop : Z) : exn :=
  ValueError ("empty range for randrange() (" ++ str start ++ ", "
              ++ str stop ++ ", " ++ str (stop - start) ++ ")")%string.

(** [random.randint(lo, hi)], that is [randrange(lo, hi + 1)]. *)
Definition randint (lo hi : Z) : M Z :=
  fun w =>
    if hi <? lo then (raise (empty_range lo (hi + 1)), w)
    else (returns (drawn lo hi w), after_draw w).

Section Backend.

(** [Aer.get_backend('qasm_simulator')]: the external sampler, from a
    circuit and a shot count to the histogram of [get_counts()]. *)
Variable qasm_simulator : QuantumCircuit -> nat -> histogram.

(** [execute(qc, backend, shots=shots).result().get_counts()]. *)
Definition execute (qc : QuantumCircuit) (shots : nat) : M histogram :=
  fun w =>
    (returns (qasm_simulator qc shots), after_execution qc shots w).

Definition find_period (a n : Z) (counting_qubits shots : nat)
  : M (option Z) :=
  qc <- lift (create_shors_circuit a n counting_qubits) ;;
  counts <- execute qc shots ;;
  lift (extract_period counts a n counting_qubits).

(** What [shor_algorithm] hands back: a pair of integers or a string. *)
Inductive answer : Type :=
| factors (factor1 factor2 : Z)
| message (text : string).

Definition failed_to_find_period : string :=
  "Failed to find period, try again.".
Definition r_is_odd : string :=
  "r is odd, try again with a different a.".
Definition trivial_square_root : string :=
  "a^(r/2) mod N = -1, try again with a different a.".

Definition shor_algorithm (N : Z) : M answer :=
  if N mod 2 =? 0 then ret (factors 2 (N / 2))
  else
    a <- randint 2 (N - 1) ;;
    let factor := Z.gcd a N in
    if factor >? 1 then ret (factors factor (N / factor))
    else
      r <- find_period a N 8 1024 ;;
      match r with
      | None => ret (message failed_to_find_period)
      | Some r =>
          if negb (r mod 2 =? 0) then ret (message r_is_odd)
          else if a ^ (r / 2) mod N =? N - 1
          then ret (message trivial_square_root)
          else
            let factor1 := Z.gcd (a ^ (r / 2) - 1) N in
            let factor2 := Z.gcd (a ^ (r / 2) + 1) N in
            ret (factors factor1 factor2)
      end.

End Backend.

(** ** The example driver *)


Section Example.

Variable qasm_simulator : QuantumCircuit -> nat -> histogram.

(** [transpile(circuit, backend).depth()], computed by the transpiler. *)
Variable transpiled_depth : QuantumCircuit -> nat.


End Example.

(** ** Action of a permutation circuit on computational-basis states

    A basis state of the register is the integer whose bit [q] is the
    value of qubit [q] (qubit 0 least significant, the order in which
    [create_shors_circuit] sets the work register to 1 by flipping its
    first qubit).  [x] and [swap] map basis states to basis states; the
    other instructions do not, and leave [basis_run] undefined. *)

Definition flip_bit (q : nat) (s : Z) : Z := Z.lxor s (2 ^ Z.of_nat q).

Definition swap_bits (q1 q2 : nat) (s : Z) : Z :=
  if Bool.eqb (Z.testbit s (Z.of_nat q1)) (Z.testbit s (Z.of_nat q2)) then s
  else flip_bit q2 (flip_bit q1 s).

Fixpoint basis_run (gates : list instruction) (s : Z) : option Z :=
  match gates with
  | [] => Some s
  | qc_x q :: rest => basis_run rest (flip_bit q s)
  | qc_swap q1 q2 :: rest => basis_run rest (swap_bits q1 q2 s)
  | _ :: _ => None
  end.

(** The basis state a built circuit sends [s] to. *)
Definition acts_on (built : throws QuantumCircuit) (s : Z) : option Z :=
  match built with
  | inl _ => None
  | inr U => basis_run (data U) s
  end.

(** The same register read with qubit 0 most significant. *)
Definition reversed4 (s : Z) : Z :=
  (if Z.testbit s 0 then 8 else 0) + (if Z.testbit s 1 then 4 else 0)
  + (if Z.testbit s 2 then 2 else 0) + (if Z.testbit s 3 then 1 else 0).

(** Qubits an instruction measures or resets, sub-circuits included, as
    indices of the enclosing circuit. *)
Fixpoint measured_or_reset (g : instruction) : list nat :=
  match g with
  | qc_measure qubits _ => qubits
  | qc_reset q => [q]
  | qc_append _ _ body qargs =>
      map (fun local => nth local qargs O) (flat_map measured_or_reset body)
  | _ => []
  end.

(** The controlled sub-circuits of a circuit, in order: control qubit,
    target qubits and body of each. *)
Definition controlled_applications (qc : QuantumCircuit)
  : list (nat * list nat * list instruction) :=
  flat_map (fun g =>
    match g with
    | qc_append true _ body (ctl :: targets) => [(ctl, targets, body)]
    | _ => []
    end) (data qc).

(** * Notions the properties are stated with *)

(** ** Oracle and circuit layouts *)

(** The gates one pass of the loop appends for base [a]. *)
Definition c_amod15_block (a : Z) : list instruction :=
  data (c_amod15_iteration a (new_circuit 4 0)).

(** [f] composed with itself [n] times. *)
Definition compose_n (n : nat) (f : Z -> option Z) (s : Z) : option Z :=
  Nat.iter n (fun r => match r with Some y => f y | None => None end) (Some s).

(** [r] is the multiplicative order of [a] modulo [m]. *)
Definition multiplicative_order (a m : Z) (r : nat) : Prop :=
  (0 < r)%nat /\ a ^ Z.of_nat r mod m = 1
  /\ forall k : nat, (0 < k < r)%nat -> a ^ Z.of_nat k mod m <> 1.

(** The inverse of an admissible base modulo 15 (every unit modulo 15 has
    fourth power 1). *)
Definition inverse_mod15 (a : Z) : Z := a ^ 3 mod 15.

(** The layout the specification describes, in its words: the swaps of
    qubit [i] with qubit [n-1-i] for [i < n/2]; then, for each [j] from 0
    up, the rotations by [-pi/2^(j-m)] controlled by [m] on target [j] for
    [m] from 0 up to [j-1], and a Hadamard on [j]. *)
Definition swap_network (n : nat) : list instruction :=
  map (fun i => qc_swap i (n - 1 - i)) (seq 0 (n / 2)).

Definition rotations_then_hadamard (j : nat) : list instruction :=
  map (fun m => qc_cp (neg_pi_over (2 ^ Z.of_nat (j - m))) m j) (seq 0 j)
  ++ [qc_h j].

Definition inverse_transform_gates (n : nat) : list instruction :=
  swap_network n ++ flat_map rotations_then_hadamard (seq 0 n).

(** The gates of [c_amod15 a p] for an admissible base. *)
Definition oracle_gates (a : Z) (p : nat) : list instruction :=
  flat_map (fun _ => c_amod15_block a) (seq 0 p).

(** The controlled oracle the builder appends for counting qubit [q]. *)
Definition controlled_oracle (a : Z) (c q : nat) : instruction :=
  qc_append true 5 (oracle_gates a (2 ^ (c - q - 1))) (q :: seq c 4).

Definition shors_gates (a : Z) (c : nat) : list instruction :=
  map qc_h (seq 0 c) ++ [qc_x c]
  ++ map (controlled_oracle a c) (seq 0 c)
  ++ [qc_append false c (inverse_transform_gates c) (seq 0 c)]
  ++ [qc_measure (seq 0 c) (seq 0 c)].

(** ** Concrete worlds and samplers *)

(** A world whose random source always yields [k], with nothing executed. *)
Definition constant_world (k : Z) : world := mkWorld (fun _ => k) 0 [].

(** A sampler whose histogram peaks at the phases 0, 1/4, 2/4 and 3/4. *)
Definition peaked_sampler (_ : QuantumCircuit) (_ : nat) : histogram :=
  [("00000000", 260%nat); ("01000000", 250%nat);
   ("10000000", 255%nat); ("11000000", 259%nat)].

(** A sampler whose only outcome has phase 85/256, closest to 1/3. *)
Definition thirds_sampler (_ : QuantumCircuit) (shots : nat) : histogram :=
  [("01010101", shots)].

(** ** Fractions, histograms and candidates *)

(** [f] is in lowest terms with a positive denominator, as every
    [Fraction] is. *)
Definition lowest_terms (f : Fraction.t) : Prop :=
  0 < Fraction.denominator f
  /\ Z.gcd (Fraction.numerator f) (Fraction.denominator f) = 1.

(** [f] has the value [p / q]. *)
Definition is_quotient (f : Fraction.t) (p q : Z) : Prop :=
  0 < Fraction.denominator f
  /\ Fraction.numerator f * q = p * Fraction.denominator f.

(** [f] has a denominator in [1..bound] and no fraction [p / q] with a
    denominator in that range is closer to [x]:
    [|f - x| <= |p/q - x|], cross-multiplied. *)
Definition closest_fraction (x : Fraction.t) (bound : Z) (f : Fraction.t)
  : Prop :=
  0 < Fraction.denominator f <= bound
  /\ forall p q, 0 < q <= bound ->
       Z.abs (Fraction.numerator f * Fraction.denominator x
              - Fraction.numerator x * Fraction.denominator f) * q
       <= Z.abs (p * Fraction.denominator x - Fraction.numerator x * q)
          * Fraction.denominator f.

(** The invariant of the continued-fraction loop for the fraction
    [N0 / D0] and the bound [M], from the second pass on. *)
Definition loop_invariant (N0 D0 M p0 q0 p1 q1 n d : Z) : Prop :=
  p1 * n + p0 * d = N0
  /\ q1 * n + q0 * d = D0
  /\ (p1 * q0 - p0 * q1 = 1 \/ p1 * q0 - p0 * q1 = -1)
  /\ 0 <= d < n
  /\ 0 <= q0 <= M
  /\ 1 <= q1 <= M
  /\ (q0 = 0 -> q1 = 1).

(** The characters of a measured key. *)
Definition is_binary_digit (ch : ascii) : bool :=
  Ascii.eqb ch "0" || Ascii.eqb ch "1".

Fixpoint all_binary (s : string) : bool :=
  match s with
  | EmptyString => true
  | String ch rest => is_binary_digit ch && all_binary rest
  end.

(** A key as a sampler writes it: one or more characters, all 0 or 1. *)
Definition is_bitstring (s : string) : bool :=
  negb (String.eqb s "") && all_binary s.

(** The integer a bitstring denotes, most significant digit first. *)
Fixpoint binary_value (s : string) : Z :=
  match s with
  | EmptyString => 0
  | String ch rest =>
      (if Ascii.eqb ch "1" then 2 ^ Z.of_nat (String.length rest) else 0)
      + binary_value rest
  end.

(** The integer whose quotient by [2^c] is the double of line 89. *)
Definition rounded_numerator (decimal : Z) (c : nat) : Z :=
  let dropped :=
    Z.max 0 (Z.max (bit_length decimal - 53) (Z.of_nat c - 1074)) in
  round_half_even decimal dropped * 2 ^ dropped.







(** ** Well-formed instructions and sizes *)

(** No index occurs twice in [l]. *)
Fixpoint distinct (l : list nat) : bool :=
  match l with
  | [] => true
  | q :: rest => negb (existsb (Nat.eqb q) rest) && distinct rest
  end.

(** What [QuantumCircuit] checks when an instruction is added to a circuit
    of [qubits] qubits and [clbits] classical bits: every index is in
    range, the qubits of one instruction are pairwise distinct, a
    sub-circuit gets as many qubits as it is wide, and its body is
    well-formed on its own width (one less under a control). *)
Fixpoint well_formed (qubits clbits : nat) (g : instruction) : bool :=
  match g with
  | qc_h q | qc_x q | qc_reset q => (q <? qubits)%nat
  | qc_swap q1 q2 =>
      (q1 <? qubits)%nat && (q2 <? qubits)%nat && negb (q1 =? q2)%nat
  | qc_cp _ c t =>
      (c <? qubits)%nat && (t <? qubits)%nat && negb (c =? t)%nat
  | qc_measure qs cs =>
      (List.length qs =? List.length cs)%nat
      && forallb (fun q => (q <? qubits)%nat) qs
      && forallb (fun b => (b <? clbits)%nat) cs
  | qc_append controlled width body qargs =>
      (List.length qargs =? width)%nat && distinct qargs
      && forallb (fun q => (q <? qubits)%nat) qargs
      && forallb (well_formed (if controlled then width - 1 else width) 0) body
  end.

(** The number of gates one pass of the loop of [c_amod15] appends. *)
Definition gates_per_pass (a : Z) : nat :=
  (if Py.contains a [2; 13] then 3 else 0)
  + (if Py.contains a [7; 8] then 3 else 0)
  + (if Py.contains a [4; 11] then 2 else 0)
  + (if Py.contains a [7; 11; 13] then 4 else 0).

(** A sampler whose only outcome has phase 1/8. *)
Definition eighth_sampler (_ : QuantumCircuit) (shots : nat) : histogram :=
  [("00100000", shots)].

(** The only gates [c_amod15] uses. *)
Definition x_or_swap (g : instruction) : bool :=
  match g with
  | qc_x _ | qc_swap _ _ => true
  | _ => false
  end.





(** * Properties *)

(** ** Loops that only append *)

Section Loops.

Context {S : Type}.

Lemma for_range_succ (n : nat) (body : nat -> S -> S) (s : S) :
  Py.for_range (Datatypes.S n) body s = body n (Py.for_range n body s).
Proof.
  unfold Py.for_range, Py.range.
  rewrite seq_S, fold_left_app. reflexivity.
Qed.

Lemma for_range_t_succ (n : nat) (body : nat -> S -> throws S) (s : S) :
  Py.for_range_t (Datatypes.S n) body s
  = bind_throws (Py.for_range_t n body s) (body n).
Proof.
  unfold Py.for_range_t, Py.range.
  rewrite seq_S, fold_left_app. reflexivity.
Qed.

(** A loop whose body never raises below [n] is the plain loop. *)
Lemma for_range_t_total (n : nat) (body : nat -> S -> throws S)
    (pure : nat -> S -> S) (s : S) :
  (forall i s', (i < n)%nat -> body i s' = returns (pure i s')) ->
  Py.for_range_t n body s = returns (Py.for_range n pure s).
Proof.
  induction n as [|n IH]; intros Hbody.
  - reflexivity.
  - rewrite for_range_t_succ, for_range_succ, IH by (intros; apply Hbody; lia).
    simpl. apply Hbody. lia.
Qed.

(** Once an iteration has raised, the exception is the loop's result. *)
Lemma for_range_t_raised (n k : nat) (body : nat -> S -> throws S)
    (s : S) (e : exn) :
  (k <= n)%nat ->
  Py.for_range_t k body s = raise e ->
  Py.for_range_t n body s = raise e.
Proof.
  intros Hle Hk. induction Hle as [|n Hle IH].
  - exact Hk.
  - rewrite for_range_t_succ, IH. reflexivity.
Qed.

End Loops.

(** A loop emitting [gates i] on pass [i] appends those lists in order. *)
Lemma for_range_emits (n : nat) (body : nat -> QuantumCircuit -> QuantumCircuit)
    (gates : nat -> list instruction) (qc : QuantumCircuit) :
  (forall i c, (i < n)%nat ->
     body i c = mkCircuit (num_qubits c) (num_clbits c) (data c ++ gates i)) ->
  Py.for_range n body qc
  = mkCircuit (num_qubits qc) (num_clbits qc)
      (data qc ++ flat_map gates (seq 0 n)).
Proof.
  induction n as [|n IH]; intros Hbody.
  - simpl. rewrite app_nil_r. destruct qc; reflexivity.
  - rewrite for_range_succ, IH by (intros; apply Hbody; lia).
    rewrite Hbody by lia. rewrite seq_S, flat_map_app. cbn.
    rewrite app_nil_r, app_assoc. reflexivity.
Qed.

(** ** The oracle: which bases it accepts *)

Lemma contains_In (v : Z) (xs : list Z) :
  Py.contains v xs = true <-> In v xs.
Proof.
  unfold Py.contains. rewrite existsb_exists. split.
  - intros [y [Hin Heq]]. apply Z.eqb_eq in Heq. subst. exact Hin.
  - intros Hin. exists v. split; [exact Hin | apply Z.eqb_refl].
Qed.

Lemma c_amod15_rejects (a : Z) (power : nat) :
  ~ In a admissible_bases -> c_amod15 a power = raise unsupported_base.
Proof.
  intros Hout. unfold c_amod15.
  destruct (Py.contains a admissible_bases) eqn:E.
  - apply contains_In in E. contradiction.
  - reflexivity.
Qed.

Lemma c_amod15_iteration_appends (a : Z) (U : QuantumCircuit) :
  c_amod15_iteration a U
  = mkCircuit (num_qubits U) (num_clbits U) (data U ++ c_amod15_block a).
Proof.
  unfold c_amod15_block, c_amod15_iteration.
  destruct (Py.contains a [2; 13]), (Py.contains a [7; 8]),
    (Py.contains a [4; 11]), (Py.contains a [7; 11; 13]);
    destruct U as [nq nc d]; unfold Py.for_range, swap, x, emit; cbn;
    repeat rewrite <- app_assoc; cbn; rewrite ?app_nil_r; reflexivity.
Qed.

Lemma c_amod15_accepts (a : Z) (power : nat) :
  In a admissible_bases ->
  c_amod15 a power
  = returns (mkCircuit 4 0 (flat_map (fun _ => c_amod15_block a) (seq 0 power))).
Proof.
  intros Hin. unfold c_amod15.
  apply contains_In in Hin. rewrite Hin. cbn [negb].
  rewrite (for_range_emits power _ (fun _ => c_amod15_block a)).
  - reflexivity.
  - intros i c _. apply c_amod15_iteration_appends.
Qed.

(** C6.  [c_amod15] raises the unsupported-base [ValueError] for every
    base outside 2, 4, 7, 8, 11, 13, whatever the power, and no circuit is
    produced; for every base in the list it returns a circuit. *)
Theorem c_amod15_base_check (a : Z) (power : nat) :
  (~ In a admissible_bases -> c_amod15 a power = raise unsupported_base)
  /\ (In a admissible_bases -> exists U, c_amod15 a power = returns U).
Proof.
  split.
  - apply c_amod15_rejects.
  - intros Hin. eexists. apply c_amod15_accepts, Hin.
Qed.

Lemma c_amod15_base_check_witness :
  c_amod15 3 5 = raise unsupported_base
  /\ exists U, c_amod15 7 2 = returns U.
Proof.
  split.
  - apply (proj1 (c_amod15_base_check 3 5)). cbn. lia.
  - apply (proj2 (c_amod15_base_check 7 2)). cbn. lia.
Defined.

(** ** The oracle as a permutation of basis states *)

Lemma basis_run_app (g1 g2 : list instruction) (s : Z) :
  basis_run (g1 ++ g2) s
  = match basis_run g1 s with
    | Some s' => basis_run g2 s'
    | None => None
    end.
Proof.
  revert s. induction g1 as [|g g1 IH]; intros s.
  - reflexivity.
  - destruct g; cbn; try reflexivity; apply IH.
Qed.

Lemma compose_n_ext (n : nat) (f g : Z -> option Z) (s : Z) :
  (forall y, f y = g y) -> compose_n n f s = compose_n n g s.
Proof.
  intros Hfg. unfold compose_n. induction n as [|n IH]; [reflexivity|].
  rewrite !Nat.iter_succ, IH. clear IH.
  destruct (Nat.iter n _ _); [apply Hfg|reflexivity].
Qed.

Ltac each_base H :=
  cbn in H; repeat (destruct H as [H | H]); [subst .. | contradiction].

Ltac each_state s Hs :=
  let C := fresh "C" in
  assert (C : s = 0 \/ s = 1 \/ s = 2 \/ s = 3 \/ s = 4 \/ s = 5 \/ s = 6
              \/ s = 7 \/ s = 8 \/ s = 9 \/ s = 10 \/ s = 11 \/ s = 12
              \/ s = 13 \/ s = 14 \/ s = 15) by lia;
  repeat (destruct C as [C | C]); subst s.

Lemma inverse_mod15_spec (a : Z) :
  In a admissible_bases -> (a * inverse_mod15 a) mod 15 = 1.
Proof. intros Hin. each_base Hin; reflexivity. Qed.

(** One pass of the loop permutes the sixteen basis states. *)
Lemma block_closed (a s : Z) :
  In a admissible_bases -> 0 <= s < 16 ->
  exists y, basis_run (c_amod15_block a) s = Some y /\ 0 <= y < 16.
Proof.
  intros Hin Hs. each_base Hin; each_state s Hs;
    (eexists; split; [vm_compute; reflexivity | lia]).
Qed.

Lemma block_injective (a s1 s2 : Z) :
  In a admissible_bases -> 0 <= s1 < 16 -> 0 <= s2 < 16 ->
  basis_run (c_amod15_block a) s1 = basis_run (c_amod15_block a) s2 ->
  s1 = s2.
Proof.
  intros Hin H1 H2. each_base Hin; each_state s1 H1; each_state s2 H2;
    vm_compute; congruence.
Qed.

(** On the states 1..14 one pass multiplies by the inverse of the base. *)
Lemma block_multiplies (a s : Z) :
  In a admissible_bases -> 1 <= s <= 14 ->
  basis_run (c_amod15_block a) s = Some ((inverse_mod15 a * s) mod 15)
  /\ 1 <= (inverse_mod15 a * s) mod 15 <= 14.
Proof.
  intros Hin Hs. each_base Hin; each_state s Hs; try lia;
    (split; [vm_compute; reflexivity | vm_compute; split; discriminate]).
Qed.

(** Read with qubit 0 most significant, one pass multiplies by the base. *)
Lemma block_multiplies_reversed (a s y : Z) :
  In a admissible_bases -> 0 <= s < 16 -> 1 <= reversed4 s <= 14 ->
  basis_run (c_amod15_block a) s = Some y ->
  reversed4 y = (a * reversed4 s) mod 15.
Proof.
  intros Hin Hs. each_base Hin; each_state s Hs; vm_compute;
    intros [H1 H2] H; try (exfalso; apply H1; reflexivity);
    try (exfalso; apply H2; reflexivity);
    injection H as <-; reflexivity.
Qed.

Lemma acts_on_c_amod15_succ (a : Z) (p : nat) (s : Z) :
  In a admissible_bases ->
  acts_on (c_amod15 a (S p)) s
  = match acts_on (c_amod15 a p) s with
    | Some y => basis_run (c_amod15_block a) y
    | None => None
    end.
Proof.
  intros Hin. rewrite !c_amod15_accepts by exact Hin.
  cbn [acts_on returns data]. rewrite seq_S, flat_map_app. cbn [flat_map].
  rewrite app_nil_r. apply basis_run_app.
Qed.

Lemma acts_on_c_amod15_one (a s : Z) :
  In a admissible_bases ->
  acts_on (c_amod15 a 1) s = basis_run (c_amod15_block a) s.
Proof.
  intros Hin. rewrite c_amod15_accepts by exact Hin.
  cbn. rewrite app_nil_r. reflexivity.
Qed.

(** [c_amod15 a p] is the single application composed [p] times. *)
Lemma c_amod15_power_composes (a : Z) (p : nat) (s : Z) :
  In a admissible_bases ->
  acts_on (c_amod15 a p) s = compose_n p (acts_on (c_amod15 a 1)) s.
Proof.
  intros Hin. induction p as [|p IH].
  - rewrite c_amod15_accepts by exact Hin. reflexivity.
  - rewrite acts_on_c_amod15_succ by exact Hin. rewrite IH.
    unfold compose_n. rewrite Nat.iter_succ.
    destruct (Nat.iter p _ _); [|reflexivity].
    symmetry. apply acts_on_c_amod15_one, Hin.
Qed.

Lemma c_amod15_closed (a : Z) (p : nat) (s : Z) :
  In a admissible_bases -> 0 <= s < 16 ->
  exists y, acts_on (c_amod15 a p) s = Some y /\ 0 <= y < 16.
Proof.
  intros Hin Hs. induction p as [|p [y [Hy Hr]]].
  - exists s. rewrite c_amod15_accepts by exact Hin. split; [reflexivity|lia].
  - rewrite acts_on_c_amod15_succ, Hy by exact Hin.
    apply block_closed; assumption.
Qed.

Lemma c_amod15_injective (a : Z) (p : nat) (s1 s2 : Z) :
  In a admissible_bases -> 0 <= s1 < 16 -> 0 <= s2 < 16 ->
  acts_on (c_amod15 a p) s1 = acts_on (c_amod15 a p) s2 -> s1 = s2.
Proof.
  intros Hin H1 H2. induction p as [|p IH].
  - rewrite c_amod15_accepts by exact Hin. cbn. congruence.
  - rewrite !acts_on_c_amod15_succ by exact Hin.
    destruct (c_amod15_closed a p s1 Hin H1) as [y1 [E1 R1]].
    destruct (c_amod15_closed a p s2 Hin H2) as [y2 [E2 R2]].
    rewrite E1, E2 in *. intros Heq.
    apply IH. f_equal. eapply block_injective; eassumption.
Qed.

(** What the circuit computes on 1..14: multiplication by the [p]-th power
    of the inverse of the base. *)
Lemma c_amod15_multiplies_by_inverse (a : Z) (p : nat) (s : Z) :
  In a admissible_bases -> 1 <= s <= 14 ->
  acts_on (c_amod15 a p) s = Some ((inverse_mod15 a ^ Z.of_nat p * s) mod 15)
  /\ 1 <= (inverse_mod15 a ^ Z.of_nat p * s) mod 15 <= 14.
Proof.
  intros Hin Hs. induction p as [|p [IHv IHr]].
  - rewrite c_amod15_accepts by exact Hin. cbn [Z.of_nat Z.pow].
    rewrite Z.mul_1_l, Z.mod_small by lia. split; [reflexivity | lia].
  - rewrite acts_on_c_amod15_succ, IHv by exact Hin.
    destruct (block_multiplies a _ Hin IHr) as [Hv Hr].
    rewrite Z.mul_mod_idemp_r in Hv, Hr by lia.
    replace (inverse_mod15 a ^ Z.of_nat (S p) * s)
      with (inverse_mod15 a * (inverse_mod15 a ^ Z.of_nat p * s)).
    + split; assumption.
    + rewrite Nat2Z.inj_succ, Z.pow_succ_r by lia. ring.
Qed.

Lemma order_of_admissible (a : Z) (r : nat) :
  In a admissible_bases -> multiplicative_order a 15 r ->
  (Py.contains a [4; 11] = true /\ r = 2%nat)
  \/ (Py.contains a [2; 7; 8; 13] = true /\ r = 4%nat).
Proof.
  intros Hin [Hpos [Hone Hmin]].
  assert (Hle : (r <= 4)%nat).
  { destruct (Nat.le_gt_cases r 4) as [H|H]; [exact H|].
    exfalso. apply (Hmin 4%nat); [lia|]. each_base Hin; reflexivity. }
  assert (C : r = 1%nat \/ r = 2%nat \/ r = 3%nat \/ r = 4%nat) by lia.
  each_base Hin; destruct C as [C|[C|[C|C]]]; subst r;
    try (vm_compute in Hone; discriminate);
    try (left; split; reflexivity); try (right; split; reflexivity);
    exfalso; apply (Hmin 2%nat); try lia; reflexivity.
Qed.

Lemma block_order (a : Z) (r : nat) (s : Z) :
  In a admissible_bases -> multiplicative_order a 15 r -> 0 <= s < 16 ->
  compose_n r (basis_run (c_amod15_block a)) s = Some s.
Proof.
  intros Hin Hord Hs.
  destruct (order_of_admissible a r Hin Hord) as [[Ha ->]|[Ha ->]];
    each_base Hin; try discriminate Ha; each_state s Hs; reflexivity.
Qed.

(** C1 (as the code has it).  For every admissible base [a] and every
    power [p], [c_amod15 a p] returns a circuit that permutes the sixteen
    basis states of the work register and maps the states 1..14 among
    themselves; for the bases 4 and 11 it sends [s] in 1..14 to
    [(a^p * s) mod 15]; and for every admissible base the single
    application composed with itself [order a] times is the identity on
    all sixteen states. *)
Theorem c_amod15_permutation (a : Z) (p : nat) :
  In a admissible_bases ->
  exists U, c_amod15 a p = returns U
  /\ (forall s, 0 <= s < 16 ->
        exists y, basis_run (data U) s = Some y /\ 0 <= y < 16)
  /\ (forall s1 s2, 0 <= s1 < 16 -> 0 <= s2 < 16 ->
        basis_run (data U) s1 = basis_run (data U) s2 -> s1 = s2)
  /\ (forall s, 1 <= s <= 14 ->
        exists y, basis_run (data U) s = Some y /\ 1 <= y <= 14)
  /\ (In a [4; 11] -> forall s, 1 <= s <= 14 ->
        basis_run (data U) s = Some ((a ^ Z.of_nat p * s) mod 15))
  /\ (forall r, multiplicative_order a 15 r ->
        forall s, 0 <= s < 16 ->
          compose_n r (acts_on (c_amod15 a 1)) s = Some s).
Proof.
  intros Hin.
  pose proof (c_amod15_accepts a p Hin) as HU.
  eexists. split; [exact HU|].
  set (U := mkCircuit 4 0 _) in *.
  assert (Hact : forall s, basis_run (data U) s = acts_on (c_amod15 a p) s)
    by (intros s; rewrite HU; reflexivity).
  repeat split.
  - intros s Hs. rewrite Hact. apply c_amod15_closed; assumption.
  - intros s1 s2 H1 H2. rewrite !Hact. apply c_amod15_injective; assumption.
  - intros s Hs. rewrite Hact.
    destruct (c_amod15_multiplies_by_inverse a p s Hin Hs) as [Hv Hr].
    eexists. split; [exact Hv | exact Hr].
  - intros Hself s Hs. rewrite Hact.
    destruct (c_amod15_multiplies_by_inverse a p s Hin Hs) as [Hv _].
    rewrite Hv. clear Hv.
    destruct Hself as [<-|[<-|[]]]; reflexivity.
  - intros r Hord s Hs.
    rewrite <- (block_order a r s Hin Hord Hs).
    apply compose_n_ext. intros y. apply acts_on_c_amod15_one, Hin.
Qed.

Lemma c_amod15_permutation_witness :
  In 11 admissible_bases
  /\ exists U, c_amod15 11 3 = returns U
     /\ basis_run (data U) 2 = Some ((11 ^ 3 * 2) mod 15)
     /\ compose_n 2 (acts_on (c_amod15 11 1)) 15 = Some 15.
Proof.
  assert (Hin : In 11 admissible_bases) by (cbn; lia).
  split; [exact Hin|].
  destruct (c_amod15_permutation 11 3 Hin) as [U [HU [_ [_ [_ [Hmul Hord]]]]]].
  exists U. split; [exact HU|]. split.
  - apply Hmul; [cbn; lia | lia].
  - apply Hord; [|lia].
    split; [lia|]. split; [reflexivity|].
    intros k Hk. assert (k = 1%nat) as -> by lia. discriminate.
Defined.

(** The claim as the specification words it fails on the code: base 7
    sends state 0 to 15, not to [(7 * 0) mod 15]; and base 2 sends state 1
    to 8, not to [(2 * 1) mod 15]. *)
Lemma c_amod15_multiplication_counterexample :
  acts_on (c_amod15 7 1) 0 = Some 15
  /\ Some 15 <> Some ((7 ^ 1 * 0) mod 15)
  /\ acts_on (c_amod15 2 1) 1 = Some 8
  /\ Some 8 <> Some ((2 ^ 1 * 1) mod 15).
Proof. repeat split; try reflexivity; discriminate. Qed.

(** ** The inverse transform: gate order *)

Lemma flat_map_singleton {A B : Type} (f : A -> B) (l : list A) :
  flat_map (fun a => [f a]) l = map f l.
Proof. induction l as [|a l IH]; [reflexivity | cbn; rewrite IH; reflexivity]. Qed.

(** The inner loop of [qft_dagger] for a target [j] whose rotations all
    have a representable divisor. *)
Lemma qft_dagger_inner (j : nat) (qc : QuantumCircuit) :
  (j <= 1023)%nat ->
  Py.for_range_t j (fun m qc =>
      let? d := Py.float_of_pow2 (j - m) in
      returns (qc |> cp (neg_pi_over d) m j)) qc
  = returns (mkCircuit (num_qubits qc) (num_clbits qc)
      (data qc
       ++ map (fun m => qc_cp (neg_pi_over (2 ^ Z.of_nat (j - m))) m j)
              (seq 0 j))).
Proof.
  intros Hj.
  rewrite (for_range_t_total j _
             (fun m qc => cp (neg_pi_over (2 ^ Z.of_nat (j - m))) m j qc)).
  - f_equal.
    rewrite (for_range_emits j _
               (fun m => [qc_cp (neg_pi_over (2 ^ Z.of_nat (j - m))) m j])).
    + rewrite flat_map_singleton. reflexivity.
    + intros i c _. reflexivity.
  - intros i s' Hi. unfold Py.float_of_pow2.
    replace (j - i <=? 1023)%nat with true
      by (symmetry; apply Nat.leb_le; lia).
    reflexivity.
Qed.

Lemma qft_dagger_returns (n : nat) :
  (n <= 1024)%nat ->
  qft_dagger n = returns (mkCircuit n 0 (inverse_transform_gates n)).
Proof.
  intros Hn. unfold qft_dagger.
  rewrite (for_range_emits (n / 2) _ (fun i => [qc_swap i (n - 1 - i)])).
  2:{ intros i c Hi. unfold swap, emit.
      replace (n - i - 1)%nat with (n - 1 - i)%nat by lia. reflexivity. }
  rewrite flat_map_singleton. cbn [new_circuit num_qubits num_clbits data app].
  fold (swap_network n).
  rewrite (for_range_t_total n _
     (fun j qc => mkCircuit (num_qubits qc) (num_clbits qc)
                    (data qc ++ rotations_then_hadamard j))).
  - cbn [bind_throws returns]. unfold returns. f_equal.
    rewrite (for_range_emits n _ rotations_then_hadamard)
      by (intros; reflexivity).
    reflexivity.
  - intros j s' Hj. rewrite qft_dagger_inner by lia.
    cbn [bind_throws returns]. unfold h, emit, rotations_then_hadamard.
    cbn [num_qubits num_clbits data]. rewrite app_assoc. reflexivity.
Qed.

(** From 1025 qubits on, the rotation of qubit 1024 controlled by qubit 0
    needs [float(2**1024)], and the builder raises. *)
Lemma qft_dagger_overflow (n : nat) :
  (1024 < n)%nat ->
  qft_dagger n = raise (OverflowError "int too large to convert to float").
Proof.
  intros Hn. unfold qft_dagger.
  match goal with
  | |- bind_throws (Py.for_range_t n ?body ?start) _ = _ =>
      enough (Houter : Py.for_range_t n body start
                = raise (OverflowError "int too large to convert to float"))
        by (rewrite Houter; reflexivity);
      set (outer := body); set (qc0 := start)
  end.
  assert (Hstep : forall j s', (j < 1024)%nat ->
            outer j s' = returns (mkCircuit (num_qubits s') (num_clbits s')
                                    (data s' ++ rotations_then_hadamard j))).
  { intros j s' Hj. subst outer. cbv beta. rewrite qft_dagger_inner by lia.
    cbn [bind_throws returns]. unfold h, emit, rotations_then_hadamard.
    cbn [num_qubits num_clbits data]. rewrite app_assoc. reflexivity. }
  apply (for_range_t_raised n 1025); [lia|].
  rewrite for_range_t_succ.
  rewrite (for_range_t_total 1024 outer _ qc0 Hstep).
  cbn [bind_throws returns]. subst outer. cbv beta.
  match goal with
  | |- bind_throws (Py.for_range_t 1024 ?inner ?qc) _ = _ =>
      rewrite (for_range_t_raised 1024 1 inner qc
                 (OverflowError "int too large to convert to float"));
      [reflexivity | lia | reflexivity]
  end.
Qed.

(** C4.  Whenever [qft_dagger n] returns a circuit, it is on [n] qubits and
    its gates are, in order, the swaps of [i] with [n-1-i] for [i < n/2],
    then for each [j] ascending the rotations by [-pi/2^(j-m)] with control
    [m] and target [j] for [m < j] ascending, then a Hadamard on [j]; and it
    does return for every register of at most 1024 qubits. *)
Theorem qft_dagger_layout (n : nat) :
  (forall qc, qft_dagger n = returns qc ->
     num_qubits qc = n /\ data qc = inverse_transform_gates n)
  /\ ((n <= 1024)%nat -> exists qc, qft_dagger n = returns qc).
Proof.
  split.
  - intros qc Hqc. destruct (Nat.le_gt_cases n 1024) as [Hn|Hn].
    + rewrite qft_dagger_returns in Hqc by exact Hn.
      injection Hqc as <-. split; reflexivity.
    + rewrite qft_dagger_overflow in Hqc by exact Hn. discriminate Hqc.
  - intros Hn. eexists. apply qft_dagger_returns, Hn.
Qed.

Lemma qft_dagger_layout_witness :
  exists qc, qft_dagger 3 = returns qc
  /\ num_qubits qc = 3%nat
  /\ data qc = [qc_swap 0 2; qc_h 0;
                qc_cp (neg_pi_over 2) 0 1; qc_h 1;
                qc_cp (neg_pi_over 4) 0 2; qc_cp (neg_pi_over 2) 1 2; qc_h 2].
Proof.
  destruct (proj2 (qft_dagger_layout 3)) as [qc Hqc]; [repeat constructor|].
  exists qc. split; [exact Hqc|].
  destruct (proj1 (qft_dagger_layout 3) qc Hqc) as [Hn Hd].
  split; [exact Hn | rewrite Hd; reflexivity].
Defined.

(** ** The phase-estimation circuit: powers and measurements *)

Lemma create_shors_circuit_returns (a n : Z) (c : nat) :
  c = 0%nat \/ In a admissible_bases -> (c <= 1024)%nat ->
  create_shors_circuit a n c
  = returns (mkCircuit (c + 4) c (shors_gates a c)).
Proof.
  intros Hbase Hc. unfold create_shors_circuit.
  rewrite (for_range_emits c _ (fun q => [qc_h q])) by (intros; reflexivity).
  rewrite flat_map_singleton.
  rewrite (for_range_t_total c _ (fun q qc => emit (controlled_oracle a c q) qc)).
  - rewrite (for_range_emits c _ (fun q => [controlled_oracle a c q]))
      by (intros; reflexivity).
    rewrite flat_map_singleton, qft_dagger_returns by exact Hc.
    cbn [bind_throws returns]. unfold returns, measure, append, to_instruction,
      x, emit, shors_gates, Py.range, new_circuit.
    cbn [num_qubits num_clbits data app]. f_equal. f_equal.
    repeat rewrite <- app_assoc. reflexivity.
  - intros q qc Hq. destruct Hbase as [->|Hin]; [lia|].
    rewrite c_amod15_accepts by exact Hin. cbn [bind_throws returns].
    unfold control, append, controlled_oracle, oracle_gates, Py.range2.
    cbn [num_qubits data app]. replace (c + 4 - c)%nat with 4%nat by lia.
    reflexivity.
Qed.

Lemma create_shors_circuit_unsupported (a n : Z) (c : nat) :
  ~ In a admissible_bases -> (0 < c)%nat ->
  create_shors_circuit a n c = raise unsupported_base.
Proof.
  intros Hout Hc. unfold create_shors_circuit.
  match goal with
  | |- bind_throws (Py.for_range_t c ?body ?start) _ = _ =>
      rewrite (for_range_t_raised c 1 body start unsupported_base)
  end.
  - reflexivity.
  - lia.
  - rewrite for_range_t_succ. cbn [Py.for_range_t Py.range seq fold_left bind_throws returns].
    rewrite c_amod15_rejects by exact Hout. reflexivity.
Qed.

Lemma create_shors_circuit_overflow (a n : Z) (c : nat) :
  In a admissible_bases -> (1024 < c)%nat ->
  create_shors_circuit a n c
  = raise (OverflowError "int too large to convert to float").
Proof.
  intros Hin Hc. unfold create_shors_circuit.
  rewrite (for_range_t_total c _ (fun q qc => emit (controlled_oracle a c q) qc)).
  - cbn [bind_throws returns]. rewrite qft_dagger_overflow by exact Hc.
    reflexivity.
  - intros q qc Hq. rewrite c_amod15_accepts by exact Hin.
    cbn [bind_throws returns].
    unfold control, append, controlled_oracle, oracle_gates, Py.range2.
    cbn [num_qubits data app]. replace (c + 4 - c)%nat with 4%nat by lia.
    reflexivity.
Qed.

(** Every circuit the builder returns has the gates of [shors_gates]. *)
Lemma create_shors_circuit_shape (a n : Z) (c : nat) (qc : QuantumCircuit) :
  create_shors_circuit a n c = returns qc ->
  (c = 0%nat \/ In a admissible_bases) /\ (c <= 1024)%nat
  /\ qc = mkCircuit (c + 4) c (shors_gates a c).
Proof.
  intros Hqc.
  assert (Hbase : c = 0%nat \/ In a admissible_bases).
  { destruct c as [|c]; [left; reflexivity|]. right.
    destruct (Py.contains a admissible_bases) eqn:E;
      [apply contains_In, E|].
    rewrite create_shors_circuit_unsupported in Hqc; [discriminate Hqc| |lia].
    intros Hin. apply contains_In in Hin. congruence. }
  assert (Hc : (c <= 1024)%nat).
  { destruct (Nat.le_gt_cases c 1024) as [H|H]; [exact H|].
    destruct Hbase as [->|Hin]; [lia|].
    rewrite create_shors_circuit_overflow in Hqc by assumption.
    discriminate Hqc. }
  repeat split; try assumption.
  rewrite create_shors_circuit_returns in Hqc by assumption.
  injection Hqc as <-. reflexivity.
Qed.

Lemma block_no_measurement (a : Z) :
  flat_map measured_or_reset (c_amod15_block a) = [].
Proof.
  unfold c_amod15_block, c_amod15_iteration.
  destruct (Py.contains a [2; 13]), (Py.contains a [7; 8]),
    (Py.contains a [4; 11]), (Py.contains a [7; 11; 13]); reflexivity.
Qed.

Lemma oracle_no_measurement (a : Z) (p : nat) :
  flat_map measured_or_reset (oracle_gates a p) = [].
Proof.
  unfold oracle_gates. generalize 0%nat.
  induction p as [|p IH]; intros k; [reflexivity|].
  cbn [seq flat_map]. rewrite flat_map_app, block_no_measurement, IH.
  reflexivity.
Qed.

Lemma flat_map_nil {A B : Type} (f : A -> list B) (l : list A) :
  (forall a, In a l -> f a = []) -> flat_map f l = [].
Proof.
  induction l as [|a l IH]; intros Hf; [reflexivity|].
  cbn. rewrite (Hf a (or_introl eq_refl)), IH; [reflexivity|].
  intros b Hb. apply Hf. right. exact Hb.
Qed.

Lemma inverse_transform_no_measurement (n : nat) :
  flat_map measured_or_reset (inverse_transform_gates n) = [].
Proof.
  apply flat_map_nil. intros g Hg. unfold inverse_transform_gates in Hg.
  apply in_app_or in Hg. destruct Hg as [Hg|Hg].
  - unfold swap_network in Hg. apply in_map_iff in Hg.
    destruct Hg as [i [<- _]]. reflexivity.
  - apply in_flat_map in Hg. destruct Hg as [j [_ Hg]].
    unfold rotations_then_hadamard in Hg. apply in_app_or in Hg.
    destruct Hg as [Hg|[<-|[]]]; [|reflexivity].
    apply in_map_iff in Hg. destruct Hg as [m [<- _]]. reflexivity.
Qed.

(** Nothing before the final instruction measures or resets a qubit. *)
Lemma shors_gates_split (a : Z) (c : nat) :
  exists front,
    shors_gates a c = front ++ [qc_measure (seq 0 c) (seq 0 c)]
    /\ forall g, In g front -> measured_or_reset g = [].
Proof.
  exists (map qc_h (seq 0 c) ++ [qc_x c]
          ++ map (controlled_oracle a c) (seq 0 c)
          ++ [qc_append false c (inverse_transform_gates c) (seq 0 c)]).
  split.
  - unfold shors_gates. repeat rewrite <- app_assoc. reflexivity.
  - intros g Hg. repeat (apply in_app_or in Hg; destruct Hg as [Hg|Hg]).
    + apply in_map_iff in Hg. destruct Hg as [q [<- _]]. reflexivity.
    + destruct Hg as [<-|[]]. reflexivity.
    + apply in_map_iff in Hg. destruct Hg as [q [<- _]].
      cbn [controlled_oracle measured_or_reset].
      rewrite oracle_no_measurement. reflexivity.
    + destruct Hg as [<-|[]]. cbn [measured_or_reset].
      rewrite inverse_transform_no_measurement. reflexivity.
Qed.

Lemma controlled_applications_shors (a : Z) (c : nat) :
  controlled_applications (mkCircuit (c + 4) c (shors_gates a c))
  = map (fun q => (q, seq c 4, oracle_gates a (2 ^ (c - q - 1)))) (seq 0 c).
Proof.
  unfold controlled_applications, shors_gates. cbn [data].
  rewrite !flat_map_app. cbn [flat_map app].
  rewrite (flat_map_nil _ (map qc_h (seq 0 c))).
  2:{ intros g Hg. apply in_map_iff in Hg. destruct Hg as [q [<- _]].
      reflexivity. }
  cbn [app]. rewrite app_nil_r.
  induction (seq 0 c) as [|q l IH]; [reflexivity|].
  cbn [map flat_map]. rewrite IH. reflexivity.
Qed.

(** C9.  In every circuit [create_shors_circuit] returns for [c] counting
    qubits there is one controlled oracle per counting qubit [q], in the
    order of [q], controlled by [q], acting on the four work qubits, and
    built with power [2^(c-q-1)]; the last instruction measures the
    counting qubits 0..c-1 into the classical bits 0..c-1, nothing before
    it measures or resets any qubit, and so no work qubit is ever measured
    or reset.  The builder returns for every admissible base and up to
    1024 counting qubits. *)
Theorem create_shors_circuit_invariant (a n : Z) (c : nat) :
  (forall qc, create_shors_circuit a n c = returns qc ->
     List.length (controlled_applications qc) = c
     /\ (forall q, (q < c)%nat ->
           exists U, c_amod15 a (2 ^ (c - q - 1)) = returns U
           /\ nth_error (controlled_applications qc) q
              = Some (q, seq c 4, data U))
     /\ (exists front,
           data qc = front ++ [qc_measure (seq 0 c) (seq 0 c)]
           /\ forall g, In g front -> measured_or_reset g = [])
     /\ (forall g q, In g (data qc) -> In q (measured_or_reset g) ->
           (q < c)%nat))
  /\ (In a admissible_bases -> (c <= 1024)%nat ->
      exists qc, create_shors_circuit a n c = returns qc).
Proof.
  split.
  - intros qc Hqc.
    destruct (create_shors_circuit_shape a n c qc Hqc) as [Hbase [Hc ->]].
    rewrite controlled_applications_shors.
    split; [rewrite length_map, length_seq; reflexivity|].
    split.
    + intros q Hq. destruct Hbase as [->|Hin]; [lia|].
      eexists. split; [apply c_amod15_accepts, Hin|].
      rewrite nth_error_map, nth_error_seq.
      replace (q <? c)%nat with true by (symmetry; apply Nat.ltb_lt; lia).
      reflexivity.
    + destruct (shors_gates_split a c) as [front [Hsplit Hfront]].
      split; [exists front; split; assumption|].
      intros g q Hg Hq. cbn [data] in Hg. rewrite Hsplit in Hg.
      apply in_app_or in Hg. destruct Hg as [Hg|[<-|[]]].
      * rewrite (Hfront g Hg) in Hq. destruct Hq.
      * cbn [measured_or_reset] in Hq. apply in_seq in Hq. lia.
  - intros Hin Hc. eexists.
    apply create_shors_circuit_returns; [right; exact Hin | exact Hc].
Qed.

Lemma create_shors_circuit_invariant_witness :
  exists qc, create_shors_circuit 7 15 3 = returns qc
  /\ (exists U, c_amod15 7 4 = returns U
      /\ nth_error (controlled_applications qc) 0 = Some (0%nat, [3; 4; 5; 6]%nat, data U))
  /\ (exists U, c_amod15 7 1 = returns U
      /\ nth_error (controlled_applications qc) 2 = Some (2%nat, [3; 4; 5; 6]%nat, data U))
  /\ forall g q, In g (data qc) -> In q (measured_or_reset g) -> (q < 3)%nat.
Proof.
  destruct (create_shors_circuit_invariant 7 15 3) as [Hinv Hret].
  destruct Hret as [qc Hqc]; [cbn; lia | repeat constructor |].
  exists qc. split; [exact Hqc|].
  destruct (Hinv qc Hqc) as [_ [Hpow [_ Hmeas]]].
  split; [apply (Hpow 0%nat); lia|].
  split; [apply (Hpow 2%nat); lia | exact Hmeas].
Defined.

(** ** The period extractor filters what it returns *)

Lemma try_phases_accepts (a n : Z) (phases : list (Fraction.t * nat)) (r : Z) :
  try_phases a n phases = returns (Some r) -> valid_period a n r = true.
Proof.
  induction phases as [|[phase count] rest IH]; cbn [try_phases].
  - discriminate.
  - destruct (Fraction.limit_denominator phase n) as [e|frac];
      cbn [bind_throws]; [discriminate|].
    destruct (valid_period a n (Fraction.denominator frac)) eqn:E.
    + intros H. injection H as <-. exact E.
    + exact IH.
Qed.

Lemma extract_period_accepts (counts : histogram) (a n : Z) (c : nat) (r : Z) :
  extract_period counts a n c = returns (Some r) -> valid_period a n r = true.
Proof.
  unfold extract_period.
  destruct (collect_phases c counts []) as [e|phases]; cbn [bind_throws];
    [discriminate | apply try_phases_accepts].
Qed.

Lemma valid_period_spec (a n r : Z) :
  valid_period a n r = true
  <-> r mod 2 = 0 /\ a ^ (r / 2) mod n <> n - 1 /\ a ^ r mod n = 1.
Proof.
  unfold valid_period.
  rewrite !andb_true_iff, negb_true_iff, !Z.eqb_eq, Z.eqb_neq. tauto.
Qed.

Section Orchestrator.

Variable qasm_simulator : QuantumCircuit -> nat -> histogram.

(** [find_period] builds the circuit, runs it once, and post-processes. *)
Lemma find_period_unfold (a n : Z) (c shots : nat) (w : world) :
  find_period qasm_simulator a n c shots w
  = match create_shors_circuit a n c with
    | inl e => (inl e, w)
    | inr qc => (extract_period (qasm_simulator qc shots) a n c,
                 after_execution qc shots w)
    end.
Proof.
  unfold find_period, bind, lift, execute.
  destruct (create_shors_circuit a n c) as [e|qc]; [reflexivity|].
  cbn. destruct (extract_period _ a n c); reflexivity.
Qed.

Lemma find_period_accepts (a n : Z) (c shots : nat) (w : world) (r : Z) :
  fst (find_period qasm_simulator a n c shots w) = returns (Some r) ->
  valid_period a n r = true.
Proof.
  rewrite find_period_unfold.
  destruct (create_shors_circuit a n c) as [e|qc]; cbn [fst];
    [discriminate | apply extract_period_accepts].
Qed.

(** [shor_algorithm] with the two checks that can never fire removed. *)
Lemma shor_algorithm_unfold (N : Z) (w : world) :
  shor_algorithm qasm_simulator N w
  = if N mod 2 =? 0 then (returns (factors 2 (N / 2)), w)
    else if N - 1 <? 2
    then (raise (empty_range 2 (N - 1 + 1)), w)
    else
      let a := drawn 2 (N - 1) w in
      if Z.gcd a N >? 1
      then (returns (factors (Z.gcd a N) (N / Z.gcd a N)), after_draw w)
      else
        match find_period qasm_simulator a N 8 1024 (after_draw w) with
        | (inl e, w') => (inl e, w')
        | (inr None, w') => (returns (message failed_to_find_period), w')
        | (inr (Some r), w') =>
            (returns (factors (Z.gcd (a ^ (r / 2) - 1) N)
                              (Z.gcd (a ^ (r / 2) + 1) N)), w')
        end.
Proof.
  unfold shor_algorithm.
  destruct (N mod 2 =? 0); [reflexivity|].
  unfold bind at 1, randint.
  destruct (N - 1 <? 2); [reflexivity|].
  unfold returns at 1. cbv beta iota zeta. fold (after_draw w).
  destruct (Z.gcd (drawn 2 (N - 1) w) N >? 1); [reflexivity|].
  unfold bind.
  destruct (find_period qasm_simulator (drawn 2 (N - 1) w) N 8 1024 (after_draw w))
    as [[e|[r|]] w'] eqn:E; try reflexivity.
  assert (Hv : valid_period (drawn 2 (N - 1) w) N r = true)
    by (apply (find_period_accepts _ _ 8%nat 1024%nat (after_draw w));
        rewrite E; reflexivity).
  apply valid_period_spec in Hv. destruct Hv as [Heven [Hnontrivial _]].
  apply Z.eqb_eq in Heven. apply Z.eqb_neq in Hnontrivial.
  rewrite Heven, Hnontrivial. reflexivity.
Qed.

End Orchestrator.

(** ** The orchestrator *)

Lemma drawn_in_range (lo hi : Z) (w : world) :
  lo <= hi -> lo <= drawn lo hi w <= hi.
Proof.
  intros Hle. unfold drawn.
  pose proof (Z.mod_pos_bound (random_source w (random_draws w)) (hi - lo + 1)).
  lia.
Qed.

(** C7.  For every even [N], [shor_algorithm] returns [(2, N // 2)] and
    leaves the world as it found it: no random draw, no execution on the
    simulator. *)
Theorem even_shortcut (qasm_simulator : QuantumCircuit -> nat -> histogram)
    (N : Z) (w : world) :
  N mod 2 = 0 ->
  shor_algorithm qasm_simulator N w = (returns (factors 2 (N / 2)), w).
Proof.
  intros Heven. rewrite shor_algorithm_unfold.
  apply Z.eqb_eq in Heven. rewrite Heven. reflexivity.
Qed.

Lemma even_shortcut_witness :
  shor_algorithm peaked_sampler 14 (constant_world 0)
  = (returns (factors 2 7), constant_world 0).
Proof. exact (even_shortcut peaked_sampler 14 (constant_world 0) eq_refl). Defined.

(** C8.  For every odd [N] with a non-empty range 2..N-1, if the base [a]
    drawn from that range shares a factor with [N], [shor_algorithm]
    returns [(gcd(a, N), N // gcd(a, N))]; the world has one more random
    draw and the same executions as before. *)
Theorem shared_factor_shortcut
    (qasm_simulator : QuantumCircuit -> nat -> histogram) (N : Z) (w : world) :
  N mod 2 <> 0 -> 2 <= N - 1 ->
  1 < Z.gcd (drawn 2 (N - 1) w) N ->
  let a := drawn 2 (N - 1) w in
  2 <= a <= N - 1
  /\ shor_algorithm qasm_simulator N w
     = (returns (factors (Z.gcd a N) (N / Z.gcd a N)), after_draw w)
  /\ executions (after_draw w) = executions w.
Proof.
  intros Hodd Hrange Hgcd a.
  split; [apply drawn_in_range; lia|]. split; [|reflexivity].
  rewrite shor_algorithm_unfold.
  apply Z.eqb_neq in Hodd. rewrite Hodd.
  replace (N - 1 <? 2) with false by (symmetry; apply Z.ltb_ge; lia).
  cbv zeta. fold a.
  replace (Z.gcd a N >? 1) with true; [reflexivity|].
  symmetry. apply Z.gtb_lt. exact Hgcd.
Qed.

Lemma shared_factor_shortcut_witness :
  drawn 2 (21 - 1) (constant_world 1) = 3
  /\ shor_algorithm peaked_sampler 21 (constant_world 1)
     = (returns (factors 3 7), after_draw (constant_world 1)).
Proof.
  split; [reflexivity|].
  refine (proj1 (proj2 (shared_factor_shortcut peaked_sampler 21
                          (constant_world 1) _ _ _)));
    [discriminate | discriminate | reflexivity].
Defined.

(** C3.  When the run reaches the last step, that is [N] is odd, the base
    [a] drawn from 2..N-1 is coprime to [N] and [find_period] returned a
    period [r], [shor_algorithm] returns
    [(gcd(a^(r//2) - 1, N), gcd(a^(r//2) + 1, N))]; for [N = 15], [a = 7],
    [r = 4] that pair is (3, 5). *)
Theorem factors_from_period
    (qasm_simulator : QuantumCircuit -> nat -> histogram)
    (N : Z) (w : world) (r : Z) :
  N mod 2 <> 0 -> 2 <= N - 1 ->
  Z.gcd (drawn 2 (N - 1) w) N <= 1 ->
  fst (find_period qasm_simulator (drawn 2 (N - 1) w) N 8 1024 (after_draw w))
  = returns (Some r) ->
  let a := drawn 2 (N - 1) w in
  fst (shor_algorithm qasm_simulator N w)
  = returns (factors (Z.gcd (a ^ (r / 2) - 1) N) (Z.gcd (a ^ (r / 2) + 1) N))
  /\ (N = 15 -> a = 7 -> r = 4 ->
      fst (shor_algorithm qasm_simulator N w) = returns (factors 3 5)).
Proof.
  intros Hodd Hrange Hgcd Hperiod a.
  assert (Hres : fst (shor_algorithm qasm_simulator N w)
    = returns (factors (Z.gcd (a ^ (r / 2) - 1) N) (Z.gcd (a ^ (r / 2) + 1) N))).
  { rewrite shor_algorithm_unfold.
    apply Z.eqb_neq in Hodd. rewrite Hodd.
    replace (N - 1 <? 2) with false by (symmetry; apply Z.ltb_ge; lia).
    cbv zeta. fold a.
    replace (Z.gcd a N >? 1) with false
      by (symmetry; rewrite Z.gtb_ltb; apply Z.ltb_ge; exact Hgcd).
    fold a in Hperiod.
    destruct (find_period qasm_simulator a N 8 1024 (after_draw w))
      as [[e|[r'|]] w']; cbn [fst] in Hperiod; try discriminate Hperiod.
    injection Hperiod as ->. reflexivity. }
  split; [exact Hres|].
  intros HN Ha Hr. rewrite Hres, HN, Ha, Hr. reflexivity.
Qed.

Lemma factors_from_period_witness :
  drawn 2 (15 - 1) (constant_world 5) = 7
  /\ fst (find_period peaked_sampler 7 15 8 1024 (after_draw (constant_world 5)))
     = returns (Some 4)
  /\ fst (shor_algorithm peaked_sampler 15 (constant_world 5))
     = returns (factors 3 5).
Proof.
  split; [reflexivity|]. split; [vm_compute; reflexivity|].
  refine (proj2 (factors_from_period peaked_sampler 15 (constant_world 5) 4
                   _ _ _ _) eq_refl eq_refl eq_refl).
  - discriminate.
  - discriminate.
  - discriminate.
  - vm_compute. reflexivity.
Defined.

(** The only message [shor_algorithm] ever returns. *)
Lemma shor_algorithm_message
    (qasm_simulator : QuantumCircuit -> nat -> histogram)
    (N : Z) (w : world) (text : string) :
  fst (shor_algorithm qasm_simulator N w) = returns (message text) ->
  text = failed_to_find_period.
Proof.
  rewrite shor_algorithm_unfold.
  destruct (N mod 2 =? 0); [discriminate|].
  destruct (N - 1 <? 2); [discriminate|]. cbv zeta.
  destruct (Z.gcd _ N >? 1); [discriminate|].
  destruct (find_period qasm_simulator _ N 8 1024 (after_draw w))
    as [[e|[r|]] w']; cbn [fst]; try discriminate.
  intros H. injection H as <-. reflexivity.
Qed.

(** C10.  A period returned by [find_period] is even and satisfies
    [a^(r//2) mod n <> n - 1], because the extractor only returns what
    passed that test; so whenever [shor_algorithm] returns a message it is
    the failed-to-find-period one, never the odd-period or the
    trivial-square-root one. *)
Theorem later_checks_unreachable
    (qasm_simulator : QuantumCircuit -> nat -> histogram) :
  (forall a n c shots w r,
     fst (find_period qasm_simulator a n c shots w) = returns (Some r) ->
     r mod 2 = 0 /\ a ^ (r / 2) mod n <> n - 1)
  /\ (forall N w text,
        fst (shor_algorithm qasm_simulator N w) = returns (message text) ->
        text = failed_to_find_period
        /\ text <> r_is_odd /\ text <> trivial_square_root).
Proof.
  split.
  - intros a n c shots w r Hr.
    apply find_period_accepts, valid_period_spec in Hr. tauto.
  - intros N w text Htext. apply shor_algorithm_message in Htext.
    subst text. repeat split; discriminate.
Qed.

Lemma later_checks_unreachable_witness :
  (4 mod 2 = 0 /\ 7 ^ (4 / 2) mod 15 <> 15 - 1)
  /\ fst (shor_algorithm thirds_sampler 15 (constant_world 5))
     = returns (message failed_to_find_period)
  /\ failed_to_find_period <> r_is_odd.
Proof.
  destruct (later_checks_unreachable peaked_sampler) as [Hfilter _].
  destruct (later_checks_unreachable thirds_sampler) as [_ Hdead].
  split.
  - apply (Hfilter 7 15 8%nat 1024%nat (constant_world 5) 4).
    vm_compute. reflexivity.
  - assert (Hrun : fst (shor_algorithm thirds_sampler 15 (constant_world 5))
                   = returns (message failed_to_find_period))
      by (vm_compute; reflexivity).
    split; [exact Hrun|].
    apply (Hdead 15 (constant_world 5) failed_to_find_period Hrun).
Defined.

(** C5.  Whatever [shor_algorithm] returns that is not a pair of factors
    is one of the three failure messages, handed back as a value.  When
    the attempt fails algorithmically, that is the circuit was built and
    run and the extractor found no period, the message is returned, not
    raised.  An exception escapes only from the random draw on an empty
    range, from building the circuit, or from reading the histogram. *)
Theorem algorithmic_failure_is_returned
    (qasm_simulator : QuantumCircuit -> nat -> histogram)
    (N : Z) (w : world) :
  let a := drawn 2 (N - 1) w in
  (forall text,
     fst (shor_algorithm qasm_simulator N w) = returns (message text) ->
     In text [failed_to_find_period; r_is_odd; trivial_square_root])
  /\ (forall qc,
        N mod 2 <> 0 -> 2 <= N - 1 -> Z.gcd a N <= 1 ->
        create_shors_circuit a N 8 = returns qc ->
        extract_period (qasm_simulator qc 1024%nat) a N 8 = returns None ->
        shor_algorithm qasm_simulator N w
        = (returns (message failed_to_find_period),
           after_execution qc 1024 (after_draw w)))
  /\ (forall e,
        fst (shor_algorithm qasm_simulator N w) = raise e ->
        N mod 2 <> 0
        /\ (N - 1 < 2
            \/ create_shors_circuit a N 8 = raise e
            \/ exists qc, create_shors_circuit a N 8 = returns qc
                 /\ extract_period (qasm_simulator qc 1024%nat) a N 8 = raise e)).
Proof.
  intros a. split; [|split].
  - intros text Htext. left. symmetry.
    apply (shor_algorithm_message qasm_simulator N w), Htext.
  - intros qc Hodd Hrange Hgcd Hqc Hnone.
    rewrite shor_algorithm_unfold.
    apply Z.eqb_neq in Hodd. rewrite Hodd.
    replace (N - 1 <? 2) with false by (symmetry; apply Z.ltb_ge; lia).
    cbv zeta. fold a.
    replace (Z.gcd a N >? 1) with false
      by (symmetry; rewrite Z.gtb_ltb; apply Z.ltb_ge; exact Hgcd).
    rewrite find_period_unfold, Hqc.
    change (returns qc) with (@inr exn QuantumCircuit qc). cbv beta iota.
    rewrite Hnone. reflexivity.
  - intros e. rewrite shor_algorithm_unfold.
    destruct (N mod 2 =? 0) eqn:Hodd; [discriminate|].
    apply Z.eqb_neq in Hodd.
    destruct (N - 1 <? 2) eqn:Hrange.
    + intros _. apply Z.ltb_lt in Hrange. tauto.
    + cbv zeta. fold a. destruct (Z.gcd a N >? 1); [discriminate|].
      rewrite find_period_unfold.
      destruct (create_shors_circuit a N 8) as [e'|qc] eqn:Hqc.
      * cbn [fst]. intros He. injection He as ->. tauto.
      * destruct (extract_period (qasm_simulator qc 1024%nat) a N 8)
          as [e'|[r|]] eqn:Hex; cbn [fst]; try discriminate.
        intros He. injection He as ->.
        split; [exact Hodd|]. right. right. exists qc. split; [reflexivity|exact Hex].
Qed.

Lemma algorithmic_failure_is_returned_witness :
  exists qc,
    create_shors_circuit 7 15 8 = returns qc
    /\ extract_period (thirds_sampler qc 1024) 7 15 8 = returns None
    /\ shor_algorithm thirds_sampler 15 (constant_world 5)
       = (returns (message failed_to_find_period),
          after_execution qc 1024 (after_draw (constant_world 5)))
    /\ In failed_to_find_period
         [failed_to_find_period; r_is_odd; trivial_square_root].
Proof.
  destruct (create_shors_circuit 7 15 8) as [e|qc] eqn:Hqc;
    [vm_compute in Hqc; discriminate Hqc|].
  exists qc.
  assert (Hnone : extract_period (thirds_sampler qc 1024) 7 15 8 = returns None)
    by (vm_compute; reflexivity).
  destruct (algorithmic_failure_is_returned thirds_sampler 15 (constant_world 5))
    as [Htag [Hret _]].
  assert (Hrun := Hret qc).
  change (drawn 2 (15 - 1) (constant_world 5)) with 7 in Hrun.
  specialize (Hrun ltac:(discriminate) ltac:(discriminate) ltac:(discriminate)
                   Hqc Hnone).
  repeat split; try assumption.
  apply Htag. rewrite Hrun. reflexivity.
Defined.

(** ** [limit_denominator] returns the closest fraction *)

Lemma make_positive (p q : Z) :
  0 < q ->
  exists f, Fraction.make p q = returns f /\ lowest_terms f /\ is_quotient f p q.
Proof.
  intros Hq. unfold Fraction.make.
  replace (q =? 0) with false by (symmetry; apply Z.eqb_neq; lia).
  replace (q <? 0) with false by (symmetry; apply Z.ltb_ge; lia).
  set (g := Z.gcd p q).
  assert (Hg : 0 < g).
  { pose proof (Z.gcd_nonneg p q). fold g in H.
    destruct (Z.eq_dec g 0) as [E|E]; [|lia].
    apply Z.gcd_eq_0_r in E. lia. }
  destruct (Z.gcd_divide_l p q) as [p' Hp]. destruct (Z.gcd_divide_r p q) as [q' Hq'].
  fold g in Hp, Hq'.
  assert (Hpd : p / g = p') by (rewrite Hp; apply Z.div_mul; lia).
  assert (Hqd : q / g = q') by (rewrite Hq'; apply Z.div_mul; lia).
  eexists. split; [reflexivity|].
  unfold lowest_terms, is_quotient. cbn [Fraction.numerator Fraction.denominator].
  assert (Hq'pos : 0 < q') by nia.
  repeat split.
  - rewrite Hqd. exact Hq'pos.
  - apply Z.gcd_div_gcd; [lia | reflexivity].
  - rewrite Hqd. exact Hq'pos.
  - rewrite Hpd, Hqd. clearbody g. rewrite Hp, Hq'. ring.
Qed.

Lemma make_coprime (p q : Z) :
  0 < q -> Z.gcd p q = 1 -> Fraction.make p q = returns (Fraction.mk p q).
Proof.
  intros Hq Hg. unfold Fraction.make.
  replace (q =? 0) with false by (symmetry; apply Z.eqb_neq; lia).
  replace (q <? 0) with false by (symmetry; apply Z.ltb_ge; lia).
  rewrite Hg, !Z.div_1_r. reflexivity.
Qed.

Lemma unimodular_coprime (a b u v : Z) :
  a * u - b * v = 1 \/ a * u - b * v = -1 -> Z.gcd a b = 1.
Proof.
  intros Hdet.
  assert (Hdiv : (Z.gcd a b | a * u - b * v)).
  { apply Z.divide_sub_r; apply Z.divide_mul_l;
      [apply Z.gcd_divide_l | apply Z.gcd_divide_r]. }
  pose proof (Z.gcd_nonneg a b) as Hnn.
  destruct Hdet as [E|E]; rewrite E in Hdiv.
  - apply Z.divide_1_r_nonneg; assumption.
  - apply Z.divide_opp_r in Hdiv. apply Z.divide_1_r_nonneg; assumption.
Qed.

(** Comparing the absolute values of two fractions compares the quotients
    they stand for. *)
Lemma le_abs_quotients (f1 f2 : Fraction.t) (a1 b1 a2 b2 : Z) :
  is_quotient f1 a1 b1 -> is_quotient f2 a2 b2 -> 0 < b1 -> 0 < b2 ->
  Fraction.le (Fraction.abs f1) (Fraction.abs f2) = true
  <-> Z.abs a1 * b2 <= Z.abs a2 * b1.
Proof.
  intros [Hd1 He1] [Hd2 He2] Hb1 Hb2.
  unfold Fraction.le, Fraction.abs. cbn [Fraction.numerator Fraction.denominator].
  rewrite Z.leb_le.
  destruct f1 as [n1 d1], f2 as [n2 d2]. cbn [Fraction.numerator Fraction.denominator] in *.
  assert (H1 : Z.abs n1 * b1 = Z.abs a1 * d1).
  { transitivity (Z.abs (n1 * b1)).
    - rewrite Z.abs_mul, (Z.abs_eq b1) by lia. reflexivity.
    - rewrite He1, Z.abs_mul, (Z.abs_eq d1) by lia. reflexivity. }
  assert (H2 : Z.abs n2 * b2 = Z.abs a2 * d2).
  { transitivity (Z.abs (n2 * b2)).
    - rewrite Z.abs_mul, (Z.abs_eq b2) by lia. reflexivity.
    - rewrite He2, Z.abs_mul, (Z.abs_eq d2) by lia. reflexivity. }
  pose proof (Z.abs_nonneg n1). pose proof (Z.abs_nonneg n2).
  pose proof (Z.abs_nonneg a1). pose proof (Z.abs_nonneg a2).
  split; intros Hle.
  - apply (Z.mul_le_mono_pos_r _ _ (d1 * d2)); [nia|].
    replace (Z.abs a1 * b2 * (d1 * d2)) with (Z.abs a1 * d1 * (d2 * b2)) by ring.
    replace (Z.abs a2 * b1 * (d1 * d2)) with (Z.abs a2 * d2 * (d1 * b1)) by ring.
    rewrite <- H1, <- H2.
    replace (Z.abs n1 * b1 * (d2 * b2)) with (Z.abs n1 * d2 * (b1 * b2)) by ring.
    replace (Z.abs n2 * b2 * (d1 * b1)) with (Z.abs n2 * d1 * (b1 * b2)) by ring.
    apply Z.mul_le_mono_nonneg_r; [nia | exact Hle].
  - apply (Z.mul_le_mono_pos_r _ _ (b1 * b2)); [nia|].
    replace (Z.abs n1 * d2 * (b1 * b2)) with (Z.abs n1 * b1 * (d2 * b2)) by ring.
    replace (Z.abs n2 * d1 * (b1 * b2)) with (Z.abs n2 * b2 * (d1 * b1)) by ring.
    rewrite H1, H2.
    replace (Z.abs a1 * d1 * (d2 * b2)) with (Z.abs a1 * b2 * (d1 * d2)) by ring.
    replace (Z.abs a2 * d2 * (d1 * b1)) with (Z.abs a2 * b1 * (d1 * d2)) by ring.
    apply Z.mul_le_mono_nonneg_r; [nia | exact Hle].
Qed.

(** Two fractions [P/Q] and [p1/q1] with [P*q1 - p1*Q = -s] and [x]
    between them: every [p/q] with [q < Q + q1] is at least as far from
    [x] as one of the two.  Distances are cross-multiplied. *)
Lemma between_neighbours (N0 D0 M p0 q0 p1 q1 n d k s p q : Z) :
  s = 1 \/ s = -1 ->
  p1 * q0 - p0 * q1 = s ->
  p1 * n + p0 * d = N0 ->
  q1 * n + q0 * d = D0 ->
  0 < d -> 0 <= k -> k * d < n ->
  1 <= q1 -> 1 <= q0 + k * q1 ->
  M < q0 + (k + 1) * q1 ->
  0 < q <= M ->
  d * q <= Z.abs (N0 * q - p * D0) * q1
  \/ (n - k * d) * q <= Z.abs (N0 * q - p * D0) * (q0 + k * q1).
Proof.
  intros Hs Hdet HN HD Hd Hk Hkd Hq1 HQ HM Hq.
  set (P := p0 + k * p1). set (Q := q0 + k * q1).
  set (al := - s * (p * q1 - p1 * q)).
  set (be := - s * (P * q - p * Q)).
  assert (Hss : s * s = 1) by (destruct Hs; subst s; reflexivity).
  assert (HPQ : P * q1 - p1 * Q = - s) by (unfold P, Q; lia).
  assert (Hqeq : q = al * Q + be * q1).
  { unfold al, be.
    replace (- s * (p * q1 - p1 * q) * Q + - s * (P * q - p * Q) * q1)
      with (- s * q * (P * q1 - p1 * Q)) by ring.
    rewrite HPQ. replace (- s * q * - s) with (q * (s * s)) by ring.
    rewrite Hss. ring. }
  assert (Hteq : N0 * q - p * D0 = s * (al * (n - k * d) - be * d)).
  { assert (Hpeq : p = al * P + be * p1).
    { unfold al, be.
      replace (- s * (p * q1 - p1 * q) * P + - s * (P * q - p * Q) * p1)
        with (- s * p * (P * q1 - p1 * Q)) by ring.
      rewrite HPQ. replace (- s * p * - s) with (p * (s * s)) by ring.
      rewrite Hss. ring. }
    assert (H1 : N0 * Q - P * D0 = s * (n - k * d)).
    { rewrite <- HN, <- HD, <- Hdet. unfold P, Q. ring. }
    assert (H2 : N0 * q1 - p1 * D0 = - s * d).
    { rewrite <- HN, <- HD, <- Hdet. ring. }
    rewrite Hqeq at 1. rewrite Hpeq at 1.
    replace (N0 * (al * Q + be * q1) - (al * P + be * p1) * D0)
      with (al * (N0 * Q - P * D0) + be * (N0 * q1 - p1 * D0)) by ring.
    rewrite H1, H2. ring. }
  rewrite Hteq.
  assert (Habs : Z.abs (s * (al * (n - k * d) - be * d))
                 = Z.abs (al * (n - k * d) - be * d)).
  { destruct Hs; subst s; [f_equal; ring|].
    rewrite <- Z.abs_opp. f_equal. ring. }
  rewrite Habs. clearbody al be. fold Q. 
  assert (He1 : 0 < n - k * d) by lia.
  assert (Hcase : (1 <= al /\ be <= 0) \/ (al <= 0 /\ 1 <= be)).
  { destruct (Z_le_gt_dec al 0) as [Ha|Ha]; destruct (Z_le_gt_dec be 0) as [Hb|Hb].
    - exfalso. assert (al * Q <= 0) by nia. assert (be * q1 <= 0) by nia. lia.
    - right. lia.
    - left. lia.
    - exfalso. assert (Q <= al * Q) by nia. assert (q1 <= be * q1) by nia.
      unfold Q in *. lia. }
  destruct Hcase as [[Ha Hb]|[Ha Hb]].
  - right.
    assert (0 <= - be * d) by nia.
    assert (H0 : 0 <= al * (n - k * d)) by nia.
    rewrite Z.abs_eq by lia.
    assert (q <= al * Q) by nia.
    assert ((n - k * d) * q <= (n - k * d) * (al * Q)) by nia.
    assert (al * (n - k * d) * Q <= (al * (n - k * d) - be * d) * Q) by nia.
    lia.
  - left.
    assert (0 <= - al * (n - k * d)) by nia.
    assert (0 <= be * d) by nia.
    rewrite <- Z.abs_opp. rewrite Z.abs_eq by lia.
    assert (q <= be * q1) by nia.
    assert (d * q <= d * (be * q1)) by nia.
    assert (be * d * q1 <= - (al * (n - k * d) - be * d) * q1) by nia.
    lia.
Qed.

(** From a state satisfying the invariant the loop leaves through its
    [break], without dividing by zero, before the fuel runs out. *)
Lemma limit_denominator_loop_fuel (N0 D0 M : Z) :
  Z.gcd N0 D0 = 1 -> M < D0 ->
  forall (fuel : nat) (p0 q0 p1 q1 n d : Z),
    loop_invariant N0 D0 M p0 q0 p1 q1 n d ->
    (Z.to_nat d < fuel)%nat ->
    exists p0' q0' p1' q1' n' d',
      Fraction.limit_denominator_loop fuel M p0 q0 p1 q1 n d
      = Some (returns (p0', q0', p1', q1'))
      /\ loop_invariant N0 D0 M p0' q0' p1' q1' n' d'
      /\ 0 < d' /\ M < q0' + n' / d' * q1'.
Proof.
  intros Hgcd HM fuel.
  induction fuel as [|fuel IH]; intros p0 q0 p1 q1 n d Hinv Hfuel; [lia|].
  destruct Hinv as [HN [HD [Hdet [Hd [Hq0 [Hq1 Hq01]]]]]].
  cbn [Fraction.limit_denominator_loop].
  destruct (Z.eqb_spec d 0) as [Hd0|Hd0].
  - exfalso. subst d. rewrite Z.mul_0_r, Z.add_0_r in HN, HD.
    assert (Hn1 : (n | 1)).
    { rewrite <- Hgcd. apply Z.gcd_greatest.
      - exists p1. lia.
      - exists q1. lia. }
    apply Z.divide_1_r_nonneg in Hn1; [|lia]. subst n. lia.
  - assert (Hdpos : 0 < d) by lia.
    assert (Ha : 1 <= n / d) by (apply Z.div_le_lower_bound; lia).
    pose proof (Z.mul_div_le n d Hdpos) as Hmul.
    pose proof (Z.mod_pos_bound n d Hdpos) as Hmod.
    rewrite Z.mod_eq in Hmod by lia.
    destruct (Z.gtb_spec (q0 + n / d * q1) M) as [Hbreak|Hgo].
    + exists p0, q0, p1, q1, n, d. repeat split; try assumption; lia.
    + apply (IH p1 q1 (p0 + n / d * p1) (q0 + n / d * q1) d (n - n / d * d)).
      * unfold loop_invariant. repeat split; lia.
      * lia.
Qed.

(** The rational-approximation step.  On a fraction in lowest terms
    and a bound of at least 1, [limit_denominator] returns, and what it
    returns is a fraction in lowest terms closest to the input among
    those with a denominator up to the bound. *)
Lemma limit_denominator_closest (x : Fraction.t) (M : Z) :
  lowest_terms x -> 1 <= M ->
  exists f, Fraction.limit_denominator x M = returns f
            /\ lowest_terms f /\ closest_fraction x M f.
Proof.
  intros [HD0 Hgcd] HM. destruct x as [N0 D0].
  cbn [Fraction.numerator Fraction.denominator] in *.
  unfold Fraction.limit_denominator. cbn [Fraction.numerator Fraction.denominator].
  replace (M <? 1) with false by (symmetry; apply Z.ltb_ge; lia).
  destruct (Z.leb_spec D0 M) as [Hsmall|Hbig].
  - exists (Fraction.mk N0 D0). split; [reflexivity|].
    split; [split; assumption|].
    split; cbn [Fraction.numerator Fraction.denominator]; [lia|].
    intros p q Hq. rewrite Z.sub_diag. cbn [Z.abs]. rewrite Z.mul_0_l.
    pose proof (Z.abs_nonneg (p * D0 - N0 * q)). nia.
  - (* the first pass never breaks: it moves to a state of the invariant *)
    cbn [Fraction.limit_denominator_loop].
    replace (D0 =? 0) with false by (symmetry; apply Z.eqb_neq; lia).
    replace (1 + N0 / D0 * 0 >? M) with false
      by (symmetry; rewrite Z.gtb_ltb; apply Z.ltb_ge; lia).
    pose proof (Z.mod_pos_bound N0 D0 HD0) as Hmod.
    rewrite Z.mod_eq in Hmod by lia.
    destruct (limit_denominator_loop_fuel N0 D0 M Hgcd Hbig
                (Z.abs_nat D0) 1 0 (0 + N0 / D0 * 1) (1 + N0 / D0 * 0)
                D0 (N0 - N0 / D0 * D0))
      as [p0 [q0 [p1 [q1 [n [d [Hloop [Hinv [Hd Hbreak]]]]]]]]].
    { unfold loop_invariant. repeat split; lia. }
    { rewrite Zabs2Nat.abs_nat_nonneg by lia.
      apply Z2Nat.inj_lt; lia. }
    rewrite Hloop. unfold returns at 1.
    destruct Hinv as [HN [HD [Hdet [Hdn [Hq0 [Hq1 Hq01]]]]]].
    replace (q1 =? 0) with false by (symmetry; apply Z.eqb_neq; lia).
    set (k := (M - q0) / q1).
    assert (Hq1pos : 0 < q1) by lia.
    pose proof (Z.mul_div_le (M - q0) q1 Hq1pos) as Hk1.
    pose proof (Z.mul_succ_div_gt (M - q0) q1 Hq1pos) as Hk2.
    fold k in Hk1, Hk2.
    assert (Hk0 : 0 <= k) by (apply Z.div_pos; lia).
    assert (Hka : k < n / d) by nia.
    pose proof (Z.mul_div_le n d Hd) as Hmul.
    assert (Hkd : k * d < n) by nia.
    assert (HQ : 1 <= q0 + k * q1).
    { destruct (Z.eq_dec q0 0) as [E|E]; [|nia].
      pose proof (Hq01 E) as E1. rewrite E, E1 in Hk2. lia. }
    assert (HQM : q0 + k * q1 <= M) by lia.
    assert (HQnext : M < q0 + (k + 1) * q1) by lia.
    rewrite (make_coprime (p0 + k * p1) (q0 + k * q1)); [|lia|].
    2:{ apply (unimodular_coprime _ _ q1 p1).
        lia. }
    rewrite (make_coprime p1 q1); [|lia|].
    2:{ apply (unimodular_coprime _ _ q0 p0).
        lia. }
    unfold returns at 1 2. cbn [bind_throws].
    unfold Fraction.sub. cbn [Fraction.numerator Fraction.denominator].
    destruct (make_positive (p1 * D0 - N0 * q1) (q1 * D0)) as [d2 [Hd2 [_ Hv2]]];
      [nia|].
    destruct (make_positive ((p0 + k * p1) * D0 - N0 * (q0 + k * q1))
                ((q0 + k * q1) * D0)) as [d1 [Hd1 [_ Hv1]]]; [nia|].
    rewrite Hd2, Hd1. unfold returns at 1 2. cbn [bind_throws].
    pose proof (le_abs_quotients d2 d1 _ _ _ _ Hv2 Hv1) as Hcmp.
    assert (Hb2 : 0 < q1 * D0) by nia.
    assert (Hb1 : 0 < (q0 + k * q1) * D0) by nia.
    specialize (Hcmp Hb2 Hb1).
    assert (Hs : exists s, (s = 1 \/ s = -1) /\ p1 * q0 - p0 * q1 = s)
      by (destruct Hdet as [E|E]; [exists 1|exists (-1)]; split; auto).
    destruct Hs as [s [Hs Hdets]].
    assert (Ha2 : Z.abs (p1 * D0 - N0 * q1) = d).
    { replace (p1 * D0 - N0 * q1) with (s * d)
        by (rewrite <- HN, <- HD, <- Hdets; ring).
      destruct Hs; subst s; [rewrite Z.mul_1_l; apply Z.abs_eq; lia|].
      replace (-1 * d) with (- d) by ring. rewrite Z.abs_opp. apply Z.abs_eq; lia. }
    assert (Ha1 : Z.abs ((p0 + k * p1) * D0 - N0 * (q0 + k * q1)) = n - k * d).
    { replace ((p0 + k * p1) * D0 - N0 * (q0 + k * q1)) with (- s * (n - k * d))
        by (rewrite <- HN, <- HD, <- Hdets; ring).
      destruct Hs; subst s.
      - replace (- (1) * (n - k * d)) with (- (n - k * d)) by ring.
        rewrite Z.abs_opp. apply Z.abs_eq; lia.
      - replace (- -1 * (n - k * d)) with (n - k * d) by ring. apply Z.abs_eq; lia. }
    rewrite Ha2, Ha1 in Hcmp.
    assert (Hnear : forall p q, 0 < q <= M ->
              d * q <= Z.abs (p * D0 - N0 * q) * q1
              \/ (n - k * d) * q <= Z.abs (p * D0 - N0 * q) * (q0 + k * q1)).
    { intros p q Hq.
      replace (Z.abs (p * D0 - N0 * q)) with (Z.abs (N0 * q - p * D0))
        by (rewrite <- Z.abs_opp; f_equal; ring).
      apply (between_neighbours N0 D0 M p0 q0 p1 q1 n d k s p q);
        try assumption; lia. }
    destruct (Fraction.le (Fraction.abs d2) (Fraction.abs d1)) eqn:Hle.
    + exists (Fraction.mk p1 q1). split; [reflexivity|].
      split.
      { split; cbn [Fraction.numerator Fraction.denominator]; [lia|].
        apply (unimodular_coprime _ _ q0 p0).
        lia. }
      split; cbn [Fraction.numerator Fraction.denominator]; [lia|].
      intros p q Hq. rewrite Ha2.
      clear Hle. pose proof (proj1 Hcmp eq_refl) as Hle.
      pose proof (Z.abs_nonneg (p * D0 - N0 * q)) as Hnn.
      destruct (Hnear p q Hq) as [H|H]; [exact H|].
      apply (Z.mul_le_mono_pos_r _ _ ((q0 + k * q1) * D0)); [nia|].
      assert (H' : d * ((q0 + k * q1) * D0) * q <= (n - k * d) * (q1 * D0) * q)
        by (apply Z.mul_le_mono_nonneg_r; lia).
      assert (H'' : (n - k * d) * q * (q1 * D0)
                    <= Z.abs (p * D0 - N0 * q) * (q0 + k * q1) * (q1 * D0))
        by (apply Z.mul_le_mono_nonneg_r; lia).
      lia.
    + exists (Fraction.mk (p0 + k * p1) (q0 + k * q1)). split; [reflexivity|].
      split.
      { split; cbn [Fraction.numerator Fraction.denominator]; [lia|].
        apply (unimodular_coprime _ _ q1 p1).
        lia. }
      split; cbn [Fraction.numerator Fraction.denominator]; [lia|].
      intros p q Hq. rewrite Ha1.
      assert (Hgt : (n - k * d) * (q1 * D0) < d * ((q0 + k * q1) * D0)).
      { destruct (Z.lt_ge_cases ((n - k * d) * (q1 * D0)) (d * ((q0 + k * q1) * D0)))
          as [Hlt|Hge]; [exact Hlt|].
        apply (proj2 Hcmp) in Hge. discriminate Hge. }
      pose proof (Z.abs_nonneg (p * D0 - N0 * q)) as Hnn.
      destruct (Hnear p q Hq) as [H|H]; [|exact H].
      apply (Z.mul_le_mono_pos_r _ _ (q1 * D0)); [nia|].
      assert (H' : (n - k * d) * (q1 * D0) * q <= d * ((q0 + k * q1) * D0) * q)
        by (apply Z.mul_le_mono_nonneg_r; lia).
      assert (H'' : d * q * ((q0 + k * q1) * D0)
                    <= Z.abs (p * D0 - N0 * q) * q1 * ((q0 + k * q1) * D0))
        by (apply Z.mul_le_mono_nonneg_r; lia).
      lia.
Qed.

(** The closest fraction need not be a convergent of the continued
    fraction: for 13/256, whose convergents are 0, 1/19, 1/20, 3/59 and
    13/256, the bound 15 gives 1/15. *)
Example limit_denominator_13_256 :
  Fraction.limit_denominator (phase_of 13 8) 15 = returns (Fraction.mk 1 15).
Proof. reflexivity. Qed.

(** ** Reading the histogram *)

Lemma binary_digits_value (s : string) (acc : Z) :
  all_binary s = true ->
  binary_digits s acc
  = returns (acc * 2 ^ Z.of_nat (String.length s) + binary_value s).
Proof.
  revert acc. induction s as [|ch rest IH]; intros acc Hs.
  - cbn. f_equal. ring.
  - cbn [all_binary] in Hs. apply andb_true_iff in Hs. destruct Hs as [Hch Hrest].
    cbn [String.length binary_value]. rewrite Nat2Z.inj_succ, Z.pow_succ_r by lia.
    unfold is_binary_digit in Hch. apply orb_true_iff in Hch.
    destruct Hch as [Hch|Hch]; apply Ascii.eqb_eq in Hch; subst ch.
    + cbn [binary_digits Ascii.eqb Bool.eqb andb]. rewrite IH by exact Hrest.
      f_equal. ring.
    + cbn [binary_digits Ascii.eqb Bool.eqb andb]. rewrite IH by exact Hrest.
      f_equal. ring.
Qed.

Lemma int_base2_value (s : string) :
  is_bitstring s = true -> int_base2 s = returns (binary_value s).
Proof.
  unfold is_bitstring, int_base2. intros Hs.
  apply andb_true_iff in Hs. destruct Hs as [Hne Hbin].
  destruct s as [|ch rest]; [discriminate Hne|].
  rewrite binary_digits_value by exact Hbin. f_equal; ring.
Qed.

Lemma binary_value_nonneg (s : string) : 0 <= binary_value s.
Proof.
  induction s as [|ch rest IH]; cbn [binary_value]; [lia|].
  destruct (Ascii.eqb ch "1"); [|lia].
  pose proof (Z.pow_nonneg 2 (Z.of_nat (String.length rest))). lia.
Qed.

(** A key of [k] binary digits reads as an integer below [2^k]. *)
Lemma binary_value_bound (s : string) :
  0 <= binary_value s < 2 ^ Z.of_nat (String.length s).
Proof.
  induction s as [|ch rest IH]; cbn [binary_value String.length]; [cbn; lia|].
  rewrite Nat2Z.inj_succ, Z.pow_succ_r by lia.
  destruct (Ascii.eqb ch "1"); lia.
Qed.

Lemma bit_length_bound (m k : Z) : 0 <= k -> m < 2 ^ k -> bit_length m <= k.
Proof.
  intros Hk Hm. unfold bit_length.
  destruct (m <=? 0) eqn:E; [lia|].
  apply Z.leb_gt in E.
  pose proof (proj1 (Z.log2_lt_pow2 m k E) Hm). lia.
Qed.

Lemma round_half_even_zero (m : Z) : round_half_even m 0 = m.
Proof.
  unfold round_half_even. cbn [Z.pow].
  rewrite Z.div_1_r, Z.mod_1_r. reflexivity.
Qed.

(** Rounding moves to one of the two neighbouring multiples. *)
Lemma round_half_even_cases (m s : Z) :
  round_half_even m s = m / 2 ^ s \/ round_half_even m s = m / 2 ^ s + 1.
Proof.
  unfold round_half_even.
  destruct (2 * (m mod 2 ^ s) <? 2 ^ s); [left; reflexivity|].
  destruct (2 * (m mod 2 ^ s) >? 2 ^ s); [right; reflexivity|].
  destruct (Z.even (m / 2 ^ s)); [left|right]; reflexivity.
Qed.

(** [phase_of decimal c] is the rounded quotient, in lowest terms. *)
Lemma phase_of_rounded (decimal : Z) (c : nat) :
  lowest_terms (phase_of decimal c)
  /\ is_quotient (phase_of decimal c) (rounded_numerator decimal c)
                 (2 ^ Z.of_nat c).
Proof.
  assert (Hpow : 0 < 2 ^ Z.of_nat c) by (apply Z.pow_pos_nonneg; lia).
  destruct (make_positive (rounded_numerator decimal c) (2 ^ Z.of_nat c) Hpow)
    as [f [Hf [Hlow Hq]]].
  unfold Fraction.make in Hf.
  replace (2 ^ Z.of_nat c =? 0) with false in Hf
    by (symmetry; apply Z.eqb_neq; lia).
  replace (2 ^ Z.of_nat c <? 0) with false in Hf
    by (symmetry; apply Z.ltb_ge; lia).
  injection Hf as <-. split; assumption.
Qed.

Lemma phase_of_lowest (decimal : Z) (c : nat) :
  lowest_terms (phase_of decimal c).
Proof. apply phase_of_rounded. Qed.

(** Nothing is rounded away from an integer below [2^53] over a register of
    at most 1074 qubits. *)
Lemma rounded_numerator_exact (decimal : Z) (c : nat) :
  decimal < 2 ^ 53 -> (c <= 1074)%nat ->
  rounded_numerator decimal c = decimal.
Proof.
  intros Hd Hc. unfold rounded_numerator.
  pose proof (bit_length_bound decimal 53 ltac:(lia) Hd).
  replace (Z.max 0 (Z.max (bit_length decimal - 53) (Z.of_nat c - 1074)))
    with 0 by lia.
  rewrite round_half_even_zero. cbn [Z.pow]. lia.
Qed.

(** There [phase_of decimal c] is the rational [decimal / 2^c] in lowest
    terms. *)
Lemma phase_of_exact (decimal : Z) (c : nat) :
  decimal < 2 ^ 53 -> (c <= 1074)%nat ->
  lowest_terms (phase_of decimal c)
  /\ is_quotient (phase_of decimal c) decimal (2 ^ Z.of_nat c).
Proof.
  intros Hd Hc. pose proof (phase_of_rounded decimal c) as H.
  rewrite (rounded_numerator_exact decimal c Hd Hc) in H. exact H.
Qed.

(** The rounded numerator of an integer of [[0, 2^c)] lies in [[0, 2^c]]. *)
Lemma rounded_numerator_range (decimal : Z) (c : nat) :
  0 <= decimal < 2 ^ Z.of_nat c ->
  0 <= rounded_numerator decimal c <= 2 ^ Z.of_nat c.
Proof.
  intros [Hlo Hhi]. unfold rounded_numerator.
  set (s := Z.max 0 (Z.max (bit_length decimal - 53) (Z.of_nat c - 1074))).
  pose proof (bit_length_bound decimal (Z.of_nat c) ltac:(lia) Hhi) as Hbl.
  assert (Hs : 0 <= s <= Z.of_nat c) by (unfold s; lia).
  assert (Hps : 0 < 2 ^ s) by (apply Z.pow_pos_nonneg; lia).
  assert (Hsplit : 2 ^ Z.of_nat c = 2 ^ s * 2 ^ (Z.of_nat c - s)).
  { rewrite <- Z.pow_add_r by lia. f_equal. lia. }
  assert (Hq0 : 0 <= decimal / 2 ^ s) by (apply Z.div_pos; lia).
  assert (Hq1 : decimal / 2 ^ s < 2 ^ (Z.of_nat c - s)).
  { apply Z.div_lt_upper_bound; lia. }
  rewrite Hsplit.
  destruct (round_half_even_cases decimal s) as [-> | ->]; nia.
Qed.


(** ** Ranking by count *)

Section Ranking.

Context {A : Type}.

Lemma insert_by_count_perm (e : A * nat) (l : list (A * nat)) :
  Permutation (insert_by_count e l) (e :: l).
Proof.
  induction l as [|e' l IH]; cbn [insert_by_count]; [reflexivity|].
  destruct (snd e <? snd e')%nat; [|reflexivity].
  rewrite IH. apply perm_swap.
Qed.



Lemma sort_by_count_desc_perm (l : list (A * nat)) :
  Permutation (sort_by_count_desc l) l.
Proof.
  induction l as [|e l IH]; [reflexivity|].
  cbn [sort_by_count_desc fold_right]. rewrite insert_by_count_perm.
  constructor. exact IH.
Qed.



End Ranking.

(** ** The extractor returns the first acceptable candidate *)

Lemma Forall_firstn_of {A : Type} (P : A -> Prop) (k : nat) (l : list A) :
  Forall P l -> Forall P (firstn k l).
Proof.
  intros Hl. rewrite <- (firstn_skipn k l) in Hl.
  apply Forall_app in Hl. tauto.
Qed.



(** A key of at most 53 binary digits reads as an integer below [2^53]. *)
Lemma binary_value_53 (s : string) :
  (String.length s <= 53)%nat -> binary_value s < 2 ^ 53.
Proof.
  intros Hlen. pose proof (binary_value_bound s) as [_ Hv].
  eapply Z.lt_le_trans; [exact Hv|].
  apply Z.pow_le_mono_r; lia.
Qed.








(** * Further properties of the builders and of the orchestrator *)

(** ** The oracle: powers compose *)

Lemma oracle_gates_shift (a : Z) (p start : nat) :
  flat_map (fun _ : nat => c_amod15_block a) (seq start p) = oracle_gates a p.
Proof.
  unfold oracle_gates. revert start.
  induction p as [|p IH]; intros start; [reflexivity|].
  cbn [seq flat_map]. rewrite (IH (S start)), (IH 1%nat). reflexivity.
Qed.

Lemma oracle_gates_add (a : Z) (p q : nat) :
  oracle_gates a (p + q) = oracle_gates a p ++ oracle_gates a q.
Proof.
  unfold oracle_gates at 1. rewrite seq_app, flat_map_app.
  rewrite (oracle_gates_shift a q (0 + p)). reflexivity.
Qed.

Lemma acts_on_oracle_gates (a : Z) (p : nat) (s : Z) :
  In a admissible_bases ->
  acts_on (c_amod15 a p) s = basis_run (oracle_gates a p) s.
Proof. intros Hin. rewrite c_amod15_accepts by exact Hin. reflexivity. Qed.

(** X1.  The power argument adds up: the circuit for [p + q] is the circuit for
    [p] followed by the circuit for [q], gate for gate, and so acts as the
    one after the other. *)
Theorem c_amod15_power_add (a : Z) (p q : nat) :
  In a admissible_bases ->
  exists Up Uq Upq,
    c_amod15 a p = returns Up /\ c_amod15 a q = returns Uq
    /\ c_amod15 a (p + q) = returns Upq
    /\ data Upq = data Up ++ data Uq
    /\ forall s, acts_on (c_amod15 a (p + q)) s
                 = match acts_on (c_amod15 a p) s with
                   | Some y => acts_on (c_amod15 a q) y
                   | None => None
                   end.
Proof.
  intros Hin.
  exists (mkCircuit 4 0 (oracle_gates a p)), (mkCircuit 4 0 (oracle_gates a q)),
         (mkCircuit 4 0 (oracle_gates a (p + q))).
  repeat split; try (apply c_amod15_accepts, Hin).
  - apply oracle_gates_add.
  - intros s. rewrite !acts_on_oracle_gates by exact Hin.
    rewrite oracle_gates_add, basis_run_app.
    destruct (basis_run (oracle_gates a p) s) as [y|]; [|reflexivity].
    symmetry. apply acts_on_oracle_gates, Hin.
Qed.

Lemma c_amod15_power_add_witness :
  In 7 admissible_bases
  /\ acts_on (c_amod15 7 (1 + 2)) 1
     = match acts_on (c_amod15 7 1) 1 with
       | Some y => acts_on (c_amod15 7 2) y
       | None => None
       end.
Proof.
  assert (Hin : In 7 admissible_bases) by (cbn; lia).
  split; [exact Hin|].
  destruct (c_amod15_power_add 7 1 2 Hin) as [Up [Uq [Upq [_ [_ [_ [_ Hact]]]]]]].
  apply Hact.
Defined.

(** ** The oracle: every fourth power is the identity *)

Lemma four_passes_identity (a s : Z) :
  In a admissible_bases -> 0 <= s < 16 ->
  basis_run (oracle_gates a 4) s = Some s.
Proof. intros Hin Hs. each_base Hin; each_state s Hs; reflexivity. Qed.

Lemma oracle_gates_period (a : Z) (m p : nat) (s : Z) :
  In a admissible_bases -> 0 <= s < 16 ->
  basis_run (oracle_gates a (4 * m + p)) s = basis_run (oracle_gates a p) s.
Proof.
  intros Hin Hs. induction m as [|m IH].
  - reflexivity.
  - replace (4 * S m + p)%nat with (4 + (4 * m + p))%nat by lia.
    rewrite oracle_gates_add, basis_run_app, four_passes_identity by assumption.
    exact IH.
Qed.

(** X2.  Whenever the power is a multiple of 4 the oracle leaves all sixteen
    basis states where they are.  In the phase-estimation circuit this is
    the case for every counting qubit [q] with [q + 3 <= c]: only the last
    two counting qubits control an oracle that moves anything. *)
Theorem c_amod15_fourth_powers (a : Z) :
  In a admissible_bases ->
  (forall (p : nat) (s : Z),
      Nat.divide 4 p -> 0 <= s < 16 -> acts_on (c_amod15 a p) s = Some s)
  /\ (forall (c q : nat) (s : Z),
        (q + 3 <= c)%nat -> 0 <= s < 16 ->
        acts_on (c_amod15 a (2 ^ (c - q - 1))) s = Some s).
Proof.
  intros Hin.
  assert (Hdiv : forall (p : nat) (s : Z),
             Nat.divide 4 p -> 0 <= s < 16 -> acts_on (c_amod15 a p) s = Some s).
  { intros p s [m Hm] Hs. rewrite acts_on_oracle_gates by exact Hin.
    replace p with (4 * m + 0)%nat by lia.
    rewrite oracle_gates_period by assumption. reflexivity. }
  split; [exact Hdiv|].
  intros c q s Hq Hs. apply Hdiv; [|exact Hs].
  exists (2 ^ (c - q - 3))%nat.
  replace (c - q - 1)%nat with (2 + (c - q - 3))%nat by lia.
  rewrite Nat.pow_add_r. cbn [Nat.pow]. lia.
Qed.

Lemma c_amod15_fourth_powers_witness :
  In 13 admissible_bases
  /\ acts_on (c_amod15 13 8) 6 = Some 6
  /\ acts_on (c_amod15 13 (2 ^ (8 - 0 - 1))) 1 = Some 1.
Proof.
  assert (Hin : In 13 admissible_bases) by (cbn; lia).
  destruct (c_amod15_fourth_powers 13 Hin) as [Hdiv Hcount].
  split; [exact Hin|]. split.
  - apply Hdiv; [exists 2%nat; reflexivity | lia].
  - apply Hcount; lia.
Defined.

(** ** The oracle: the cycle through the prepared state *)

(** X3.  From the state 1 that [create_shors_circuit] prepares, [k] passes of
    the oracle lead back to 1 exactly when [k] is a multiple of the
    multiplicative order of the base: the permutation has the period that
    phase estimation is meant to find. *)
Theorem c_amod15_cycle_length (a : Z) (r k : nat) :
  In a admissible_bases -> multiplicative_order a 15 r ->
  (acts_on (c_amod15 a k) 1 = Some 1 <-> Nat.divide r k).
Proof.
  intros Hin Hord.
  rewrite acts_on_oracle_gates by exact Hin.
  rewrite (Nat.div_mod_eq k 4).
  rewrite oracle_gates_period by (assumption || lia).
  pose proof (Nat.mod_upper_bound k 4 ltac:(lia)) as Hlt.
  set (j := (k mod 4)%nat) in *. set (m := (k / 4)%nat).
  assert (Hj : j = 0%nat \/ j = 1%nat \/ j = 2%nat \/ j = 3%nat) by lia.
  destruct (order_of_admissible a r Hin Hord) as [[Ha ->]|[Ha ->]].
  - assert (Hstep : basis_run (oracle_gates a j) 1 = Some 1
                    <-> (j = 0%nat \/ j = 2%nat)).
    { each_base Hin; try discriminate Ha;
        destruct Hj as [-> | [-> | [-> | ->]]]; vm_compute;
        split; intros H; try reflexivity; try discriminate H; try lia; auto. }
    rewrite Hstep. split.
    + intros Hcase. exists (2 * m + j / 2)%nat.
      destruct Hcase as [-> | ->]; cbn; lia.
    + intros [t Ht]. lia.
  - assert (Hstep : basis_run (oracle_gates a j) 1 = Some 1 <-> j = 0%nat).
    { each_base Hin; try discriminate Ha;
        destruct Hj as [-> | [-> | [-> | ->]]]; vm_compute;
        split; intros H; try reflexivity; try discriminate H; try lia. }
    rewrite Hstep. split.
    + intros ->. exists m. lia.
    + intros [t Ht]. lia.
Qed.

Lemma c_amod15_cycle_length_witness :
  (acts_on (c_amod15 7 8) 1 = Some 1 <-> Nat.divide 4 8)
  /\ acts_on (c_amod15 7 8) 1 = Some 1.
Proof.
  assert (Hcycle : acts_on (c_amod15 7 8) 1 = Some 1 <-> Nat.divide 4 8).
  { apply c_amod15_cycle_length; [cbn; lia|].
    split; [lia|]. split; [reflexivity|].
    intros k Hk. assert (C : k = 1%nat \/ k = 2%nat \/ k = 3%nat) by lia.
    destruct C as [-> | [-> | ->]]; discriminate. }
  split; [exact Hcycle|]. apply Hcycle. exists 2%nat. reflexivity.
Defined.

(** ** The builders only emit well-formed instructions *)



Lemma forallb_flat_map {A B : Type} (f : B -> bool) (g : A -> list B)
    (l : list A) :
  (forall a, In a l -> forallb f (g a) = true) ->
  forallb f (flat_map g l) = true.
Proof.
  intros Hl. apply forallb_forall. intros b Hb.
  apply in_flat_map in Hb. destruct Hb as [a [Ha Hb]].
  specialize (Hl a Ha). rewrite forallb_forall in Hl. apply Hl, Hb.
Qed.

Lemma length_flat_map_const {A B : Type} (block : list B) (l : list A) :
  List.length (flat_map (fun _ => block) l)
  = (List.length l * List.length block)%nat.
Proof.
  induction l as [|a l IH]; [reflexivity|].
  cbn [flat_map]. rewrite length_app, IH. cbn [List.length]. lia.
Qed.

Lemma block_well_formed (a : Z) :
  forallb (well_formed 4 0) (c_amod15_block a) = true
  /\ List.length (c_amod15_block a) = gates_per_pass a.
Proof.
  unfold c_amod15_block, c_amod15_iteration, gates_per_pass.
  destruct (Py.contains a [2; 13]), (Py.contains a [7; 8]),
    (Py.contains a [4; 11]), (Py.contains a [7; 11; 13]);
    split; reflexivity.
Qed.

Lemma oracle_gates_well_formed (a : Z) (p : nat) :
  forallb (well_formed 4 0) (oracle_gates a p) = true.
Proof.
  apply forallb_flat_map. intros _ _. apply block_well_formed.
Qed.

(** One pass of the loop of [c_amod15] appends only X gates and swaps. *)
Lemma block_x_or_swap (a : Z) : forallb x_or_swap (c_amod15_block a) = true.
Proof.
  unfold c_amod15_block, c_amod15_iteration.
  destruct (Py.contains a [2; 13]), (Py.contains a [7; 8]),
    (Py.contains a [4; 11]), (Py.contains a [7; 11; 13]); reflexivity.
Qed.

(** X5.  Every circuit [c_amod15] returns is on 4 qubits and no classical bit,
    holds [power] times the gates of one pass, every gate is an X or a
    swap, and each is well-formed there: indices below 4, swaps between two
    different qubits. *)
Theorem c_amod15_well_formed (a : Z) (power : nat) (U : QuantumCircuit) :
  c_amod15 a power = returns U ->
  num_qubits U = 4%nat /\ num_clbits U = 0%nat
  /\ List.length (data U) = (power * gates_per_pass a)%nat
  /\ forallb x_or_swap (data U) = true
  /\ forallb (well_formed 4 0) (data U) = true.
Proof.
  intros HU.
  destruct (Py.contains a admissible_bases) eqn:E.
  - apply contains_In in E. rewrite c_amod15_accepts in HU by exact E.
    injection HU as <-. cbn [num_qubits num_clbits data].
    repeat split.
    + rewrite length_flat_map_const, length_seq.
      rewrite (proj2 (block_well_formed a)). reflexivity.
    + apply forallb_flat_map. intros _ _. apply block_x_or_swap.
    + apply (oracle_gates_well_formed a power).
  - rewrite c_amod15_rejects in HU; [discriminate HU|].
    intros Hin. apply contains_In in Hin. congruence.
Qed.

Lemma c_amod15_well_formed_witness :
  exists U, c_amod15 11 5 = returns U
            /\ List.length (data U) = 30%nat
            /\ forallb x_or_swap (data U) = true
            /\ forallb (well_formed 4 0) (data U) = true.
Proof.
  eexists. split; [reflexivity|].
  destruct (c_amod15_well_formed 11 5 _ eq_refl)
    as [_ [_ [Hlen [Hgates Hwf]]]].
  split; [exact Hlen|]. split; [exact Hgates | exact Hwf].
Defined.

Lemma inverse_transform_well_formed (n : nat) :
  forallb (well_formed n 0) (inverse_transform_gates n) = true.
Proof.
  unfold inverse_transform_gates. rewrite forallb_app. apply andb_true_iff. split.
  - unfold swap_network. apply forallb_forall. intros g Hg.
    apply in_map_iff in Hg. destruct Hg as [i [<- Hi]]. apply in_seq in Hi.
    cbn [well_formed].
    assert (Hhalf : (2 * (n / 2) <= n)%nat)
      by (apply (Nat.Div0.mul_div_le n 2)).
    rewrite !andb_true_iff, negb_true_iff, !Nat.ltb_lt, Nat.eqb_neq. lia.
  - apply forallb_flat_map. intros j Hj. apply in_seq in Hj.
    unfold rotations_then_hadamard. rewrite forallb_app. apply andb_true_iff. split.
    + apply forallb_forall. intros g Hg.
      apply in_map_iff in Hg. destruct Hg as [m [<- Hm]]. apply in_seq in Hm.
      cbn [well_formed].
      rewrite !andb_true_iff, negb_true_iff, !Nat.ltb_lt, Nat.eqb_neq. lia.
    + cbn. rewrite andb_true_r. apply Nat.ltb_lt. lia.
Qed.

Lemma inverse_transform_length (n : nat) :
  (2 * List.length (flat_map rotations_then_hadamard (seq 0 n))
   = n * (n + 1))%nat.
Proof.
  induction n as [|n IH]; [reflexivity|].
  rewrite seq_S, flat_map_app, length_app. cbn [flat_map Nat.add].
  rewrite app_nil_r. unfold rotations_then_hadamard at 2.
  rewrite length_app, length_map, length_seq. cbn [List.length]. lia.
Qed.

(** X6.  Every circuit [qft_dagger n] returns holds [n // 2] swaps and
    [n * (n + 1) / 2] rotations and Hadamards, all well-formed on [n]
    qubits: indices below [n], each swap and each rotation between two
    different qubits. *)
Theorem qft_dagger_well_formed (n : nat) (qc : QuantumCircuit) :
  qft_dagger n = returns qc ->
  num_qubits qc = n /\ num_clbits qc = 0%nat
  /\ (2 * List.length (data qc) = 2 * (n / 2) + n * (n + 1))%nat
  /\ forallb (well_formed n 0) (data qc) = true.
Proof.
  intros Hqc. destruct (Nat.le_gt_cases n 1024) as [Hn|Hn].
  - rewrite qft_dagger_returns in Hqc by exact Hn. injection Hqc as <-.
    cbn [num_qubits num_clbits data]. repeat split.
    + unfold inverse_transform_gates, swap_network.
      rewrite length_app, length_map, length_seq.
      pose proof (inverse_transform_length n). lia.
    + apply inverse_transform_well_formed.
  - rewrite qft_dagger_overflow in Hqc by exact Hn. discriminate Hqc.
Qed.

Lemma qft_dagger_well_formed_witness :
  exists qc, qft_dagger 5 = returns qc
             /\ (2 * List.length (data qc) = 2 * (5 / 2) + 5 * (5 + 1))%nat
             /\ forallb (well_formed 5 0) (data qc) = true.
Proof.
  eexists. split; [reflexivity|].
  destruct (qft_dagger_well_formed 5 _ eq_refl) as [_ [_ [Hlen Hwf]]].
  split; [exact Hlen | exact Hwf].
Defined.




(** ** Which way [create_shors_circuit] ends *)

(** X8.  With at least one counting qubit the builder returns exactly for an
    admissible base and at most 1024 counting qubits.  An inadmissible
    base raises the oracle's [ValueError], also beyond 1024 qubits, because
    the oracles are built before the inverse transform; an admissible base
    beyond 1024 qubits raises the [OverflowError] of the inverse
    transform. *)
Theorem create_shors_circuit_outcome (a n : Z) (c : nat) :
  (0 < c)%nat ->
  (In a admissible_bases -> (c <= 1024)%nat ->
     exists qc, create_shors_circuit a n c = returns qc)
  /\ (~ In a admissible_bases ->
        create_shors_circuit a n c = raise unsupported_base)
  /\ (In a admissible_bases -> (1024 < c)%nat ->
        create_shors_circuit a n c
        = raise (OverflowError "int too large to convert to float")).
Proof.
  intros Hc. split; [|split].
  - intros Hin Hle. eexists.
    apply create_shors_circuit_returns; [right; exact Hin | exact Hle].
  - intros Hout. apply create_shors_circuit_unsupported; assumption.
  - intros Hin Hgt. apply create_shors_circuit_overflow; assumption.
Qed.

Lemma create_shors_circuit_outcome_witness :
  (exists qc, create_shors_circuit 2 15 4 = returns qc)
  /\ create_shors_circuit 14 15 2000 = raise unsupported_base.
Proof.
  split.
  - apply (proj1 (create_shors_circuit_outcome 2 15 4 ltac:(lia)));
      [cbn; lia | lia].
  - apply (proj1 (proj2 (create_shors_circuit_outcome 14 15 2000 ltac:(lia)))).
    cbn. lia.
Defined.

(** ** What the extractor can return *)

Lemma collect_phases_lowest (c : nat) (counts : histogram)
    (acc phases : list (Fraction.t * nat)) :
  collect_phases c counts acc = returns phases ->
  Forall (fun ph => lowest_terms (fst ph)) acc ->
  Forall (fun ph => lowest_terms (fst ph)) phases.
Proof.
  revert acc. induction counts as [|[output count] rest IH]; intros acc.
  - cbn. intros H. injection H as <-. auto.
  - cbn [collect_phases].
    destruct (int_base2 output) as [e|decimal]; cbn [bind_throws];
      [discriminate|].
    intros Hrun Hacc. apply (IH _ Hrun).
    apply Forall_app. split; [exact Hacc|].
    constructor; [apply phase_of_lowest | constructor].
Qed.

Lemma try_phases_source (a n : Z) (phases : list (Fraction.t * nat)) (r : Z) :
  try_phases a n phases = returns (Some r) ->
  exists ph f, In ph phases
               /\ Fraction.limit_denominator (fst ph) n = returns f
               /\ r = Fraction.denominator f.
Proof.
  induction phases as [|[phase count] rest IH]; cbn [try_phases].
  - discriminate.
  - destruct (Fraction.limit_denominator phase n) as [e|f] eqn:E;
      cbn [bind_throws]; [discriminate|].
    destruct (valid_period a n (Fraction.denominator f)).
    + intros H. injection H as <-.
      exists (phase, count), f. cbn [fst].
      split; [left; reflexivity | split; [exact E | reflexivity]].
    + intros H. destruct (IH H) as [ph [f' [Hin Hrest]]].
      exists ph, f'. split; [right; exact Hin | exact Hrest].
Qed.

Lemma limit_denominator_bound (x f : Fraction.t) (n : Z) :
  lowest_terms x -> Fraction.limit_denominator x n = returns f ->
  0 < Fraction.denominator f <= n.
Proof.
  intros Hx Hf. destruct (Z.lt_ge_cases n 1) as [Hn|Hn].
  - unfold Fraction.limit_denominator in Hf.
    replace (n <? 1) with true in Hf by (symmetry; apply Z.ltb_lt; exact Hn).
    discriminate Hf.
  - destruct (limit_denominator_closest x n Hx Hn) as [f' [Hf' [_ [Hden _]]]].
    rewrite Hf in Hf'. injection Hf' as <-. exact Hden.
Qed.

Lemma extract_period_bound (counts : histogram) (a n : Z) (c : nat) (r : Z) :
  extract_period counts a n c = returns (Some r) -> 0 < r <= n.
Proof.
  unfold extract_period.
  destruct (collect_phases c counts []) as [e|phases] eqn:E;
    cbn [bind_throws]; [discriminate|].
  intros Hrun. apply try_phases_source in Hrun.
  destruct Hrun as [ph [f [Hin [Hf ->]]]].
  apply (limit_denominator_bound (fst ph)); [|exact Hf].
  apply collect_phases_lowest in E; [|constructor].
  assert (Hall : Forall (fun ph => lowest_terms (fst ph))
                   (firstn 5 (sort_by_count_desc phases))).
  { apply Forall_firstn_of. rewrite (sort_by_count_desc_perm phases). exact E. }
  rewrite Forall_forall in Hall. apply Hall, Hin.
Qed.

(** X9.  A period returned by [find_period] is a period of [a] modulo [n] that
    lies between 2 and [n]: the denominator bound of [limit_denominator]
    caps it, and the parity test excludes 1. *)
Theorem find_period_range
    (qasm_simulator : QuantumCircuit -> nat -> histogram)
    (a n : Z) (c shots : nat) (w : world) (r : Z) :
  fst (find_period qasm_simulator a n c shots w) = returns (Some r) ->
  2 <= r <= n /\ a ^ r mod n = 1.
Proof.
  rewrite find_period_unfold.
  destruct (create_shors_circuit a n c) as [e|qc]; cbn [fst]; [discriminate|].
  intros Hr. pose proof (extract_period_bound _ _ _ _ _ Hr) as Hbound.
  apply extract_period_accepts, valid_period_spec in Hr.
  destruct Hr as [Heven [_ Hone]]. split; [|exact Hone].
  assert (r <> 1) by (intros ->; discriminate Heven). lia.
Qed.

Lemma find_period_range_witness :
  fst (find_period peaked_sampler 7 15 8 1024 (constant_world 0))
  = returns (Some 4)
  /\ 2 <= 4 <= 15 /\ 7 ^ 4 mod 15 = 1.
Proof.
  assert (Hrun : fst (find_period peaked_sampler 7 15 8 1024 (constant_world 0))
                 = returns (Some 4)) by (vm_compute; reflexivity).
  split; [exact Hrun|].
  exact (find_period_range peaked_sampler 7 15 8 1024 (constant_world 0) 4 Hrun).
Defined.

(** The key of 54 ones over 54 counting qubits: the quotient
    [(2^54 - 1) / 2^54] rounds to the double 1.0. *)
Example phase_of_ones_54 : phase_of (2 ^ 54 - 1) 54 = Fraction.mk 1 1.
Proof. vm_compute. reflexivity. Qed.

(** X10.  A key of exactly [c] binary digits is read as an integer below
    [2^c], and the phase computed from it lies in the interval from 0 to 1,
    both included; up to 53 counting qubits the phase is the quotient itself
    and lies below 1.  (Beyond 53 the quotient can round up to 1, as for
    the key of 54 ones.) *)
Theorem phase_in_unit_interval (output : string) (c : nat) :
  is_bitstring output = true -> String.length output = c ->
  exists decimal,
    int_base2 output = returns decimal
    /\ 0 <= decimal < 2 ^ Z.of_nat c
    /\ 0 <= Fraction.numerator (phase_of decimal c)
       <= Fraction.denominator (phase_of decimal c)
    /\ ((c <= 53)%nat ->
        is_quotient (phase_of decimal c) decimal (2 ^ Z.of_nat c)
        /\ Fraction.numerator (phase_of decimal c)
           < Fraction.denominator (phase_of decimal c)).
Proof.
  intros Hkey Hlen. exists (binary_value output).
  split; [apply int_base2_value, Hkey|].
  pose proof (binary_value_bound output) as Hv. rewrite Hlen in Hv.
  split; [exact Hv|].
  assert (Hpow : 0 < 2 ^ Z.of_nat c) by (apply Z.pow_pos_nonneg; lia).
  split.
  - destruct (phase_of_rounded (binary_value output) c) as [_ [Hden Hq]].
    pose proof (rounded_numerator_range (binary_value output) c Hv) as Hr.
    set (num := Fraction.numerator _) in *.
    set (den := Fraction.denominator _) in *.
    set (r := rounded_numerator _ _) in *.
    split; nia.
  - intros Hc.
    assert (Hd : binary_value output < 2 ^ 53).
    { apply binary_value_53. lia. }
    destruct (phase_of_exact (binary_value output) c Hd ltac:(lia))
      as [_ Hquot].
    split; [exact Hquot|].
    destruct Hquot as [Hden Hq].
    set (num := Fraction.numerator _) in *.
    set (den := Fraction.denominator _) in *.
    nia.
Qed.

Lemma phase_in_unit_interval_witness :
  exists decimal,
    int_base2 "11000000" = returns decimal
    /\ 0 <= decimal < 2 ^ Z.of_nat 8
    /\ is_quotient (phase_of decimal 8) decimal (2 ^ Z.of_nat 8)
    /\ 0 <= Fraction.numerator (phase_of decimal 8)
       < Fraction.denominator (phase_of decimal 8).
Proof.
  destruct (phase_in_unit_interval "11000000" 8 eq_refl eq_refl)
    as [decimal [Hread [Hrange [[Hlo _] Hexact]]]].
  destruct (Hexact ltac:(lia)) as [Hquot Hbelow].
  exists decimal. split; [exact Hread|]. split; [exact Hrange|].
  split; [exact Hquot|]. split; assumption.
Defined.




(** ** The orchestrator: exceptions that escape *)

(** X12.  [shor_algorithm] raises in two situations the shortcuts do not cover.
    An odd [N] below 3 leaves [random.randint] an empty range: its
    [ValueError], whose text names the range 2..N and its width, escapes
    and nothing else has happened.  A drawn base that
    is coprime to [N] but not one of 2, 4, 7, 8, 11, 13 reaches the oracle:
    its [ValueError] escapes after the draw, before anything is run. *)
Theorem shor_algorithm_raises
    (qasm_simulator : QuantumCircuit -> nat -> histogram) (N : Z) (w : world) :
  N mod 2 <> 0 ->
  (N < 3 ->
     shor_algorithm qasm_simulator N w = (raise (empty_range 2 N), w))
  /\ (3 <= N ->
      Z.gcd (drawn 2 (N - 1) w) N <= 1 ->
      ~ In (drawn 2 (N - 1) w) admissible_bases ->
      shor_algorithm qasm_simulator N w
      = (raise unsupported_base, after_draw w)).
Proof.
  intros Hodd. apply Z.eqb_neq in Hodd.
  split.
  - intros Hsmall. rewrite shor_algorithm_unfold, Hodd.
    replace (N - 1 <? 2) with true by (symmetry; apply Z.ltb_lt; lia).
    replace (N - 1 + 1) with N by lia. reflexivity.
  - intros Hbig Hgcd Hout. rewrite shor_algorithm_unfold, Hodd.
    replace (N - 1 <? 2) with false by (symmetry; apply Z.ltb_ge; lia).
    cbv zeta.
    replace (Z.gcd (drawn 2 (N - 1) w) N >? 1) with false
      by (symmetry; rewrite Z.gtb_ltb; apply Z.ltb_ge; exact Hgcd).
    rewrite find_period_unfold.
    rewrite create_shors_circuit_unsupported by (assumption || lia).
    reflexivity.
Qed.

Lemma shor_algorithm_raises_witness :
  shor_algorithm peaked_sampler 1 (constant_world 0)
  = (raise (ValueError "empty range for randrange() (2, 1, -1)"),
     constant_world 0)
  /\ drawn 2 (15 - 1) (constant_world 12) = 14
  /\ shor_algorithm peaked_sampler 15 (constant_world 12)
     = (raise unsupported_base, after_draw (constant_world 12)).
Proof.
  split; [|split].
  - apply (proj1 (shor_algorithm_raises peaked_sampler 1 (constant_world 0)
                    ltac:(discriminate))). lia.
  - reflexivity.
  - apply (proj2 (shor_algorithm_raises peaked_sampler 15 (constant_world 12)
                    ltac:(discriminate))).
    + lia.
    + discriminate.
    + cbn. lia.
Defined.

(** ** The orchestrator: what a returned pair is worth *)

Lemma gcd_two_odd (N : Z) : N mod 2 <> 0 -> Z.gcd 2 N = 1.
Proof.
  intros Hodd.
  pose proof (Z.gcd_nonneg 2 N) as Hnn.
  pose proof (Z.gcd_divide_l 2 N) as H2. pose proof (Z.gcd_divide_r 2 N) as HN.
  assert (Hle : Z.gcd 2 N <= 2) by (apply Z.divide_pos_le; [lia | exact H2]).
  assert (Hne : Z.gcd 2 N <> 0)
    by (intros E; apply Z.gcd_eq_0_l in E; discriminate E).
  destruct (Z.eq_dec (Z.gcd 2 N) 2) as [E|E]; [|lia].
  exfalso. rewrite E in HN. apply Hodd. apply Z.mod_divide; [lia | exact HN].
Qed.

(** For an odd [N > 0] dividing [(y - 1) * (y + 1)], the two greatest
    common divisors multiply to [N]. *)
Lemma gcd_pair_product (N y : Z) :
  0 < N -> N mod 2 <> 0 -> (N | (y - 1) * (y + 1)) ->
  Z.gcd (y - 1) N * Z.gcd (y + 1) N = N.
Proof.
  intros Hpos Hodd Hdiv.
  set (g1 := Z.gcd (y - 1) N). set (g2 := Z.gcd (y + 1) N).
  assert (Hg1 : 0 < g1).
  { pose proof (Z.gcd_nonneg (y - 1) N). fold g1 in H.
    destruct (Z.eq_dec g1 0) as [E|E]; [|lia].
    apply Z.gcd_eq_0_r in E. lia. }
  assert (Hg2 : 0 < g2).
  { pose proof (Z.gcd_nonneg (y + 1) N). fold g2 in H.
    destruct (Z.eq_dec g2 0) as [E|E]; [|lia].
    apply Z.gcd_eq_0_r in E. lia. }
  assert (Hcop : Z.gcd g1 g2 = 1).
  { pose proof (Z.gcd_nonneg g1 g2) as Hnn.
    assert (Hd2 : (Z.gcd g1 g2 | 2)).
    { replace 2 with ((y + 1) - (y - 1)) by ring.
      apply Z.divide_sub_r.
      - eapply Z.divide_trans; [apply Z.gcd_divide_r | apply Z.gcd_divide_l].
      - eapply Z.divide_trans; [apply Z.gcd_divide_l | apply Z.gcd_divide_l]. }
    assert (HdN : (Z.gcd g1 g2 | N))
      by (eapply Z.divide_trans; [apply Z.gcd_divide_l | apply Z.gcd_divide_r]).
    assert (Hd1 : (Z.gcd g1 g2 | Z.gcd 2 N)) by (apply Z.gcd_greatest; assumption).
    rewrite gcd_two_odd in Hd1 by exact Hodd.
    apply Z.divide_1_r_nonneg; assumption. }
  assert (Hleft : (g1 * g2 | N)).
  { assert (Hlcm : (Z.lcm g1 g2 | N))
      by (apply Z.lcm_least; apply Z.gcd_divide_r).
    pose proof (proj1 (Z.gcd_1_lcm_mul g1 g2 ltac:(lia) ltac:(lia)) Hcop) as Hmul.
    rewrite Z.abs_eq in Hmul by nia.
    rewrite <- Hmul. exact Hlcm. }
  assert (Hright : (N | g1 * g2)).
  { destruct (Z.gcd_divide_l (y - 1) N) as [A1 HA1].
    destruct (Z.gcd_divide_r (y - 1) N) as [N1 HN1].
    fold g1 in HA1, HN1.
    assert (Hred : Z.gcd A1 N1 = 1).
    { pose proof (Z.gcd_div_gcd (y - 1) N g1 ltac:(lia) eq_refl) as Hq.
      assert (E1 : (y - 1) / g1 = A1)
        by (symmetry; apply Z.div_unique_exact; lia).
      assert (E2 : N / g1 = N1)
        by (symmetry; apply Z.div_unique_exact; lia).
      rewrite E1, E2 in Hq. exact Hq. }
    assert (HN1div : (N1 | A1 * (y + 1))).
    { apply (Z.mul_divide_cancel_l _ _ g1); [lia|].
      replace (g1 * N1) with N by lia.
      replace (g1 * (A1 * (y + 1))) with ((y - 1) * (y + 1)) by (rewrite HA1; ring).
      exact Hdiv. }
    assert (HN1y : (N1 | y + 1)).
    { apply (Z.gauss N1 A1); [exact HN1div|].
      rewrite Z.gcd_comm. exact Hred. }
    assert (HN1g2 : (N1 | g2)).
    { apply Z.gcd_greatest; [exact HN1y|]. exists g1. lia. }
    replace N with (g1 * N1) by lia.
    apply Z.mul_divide_mono_l. exact HN1g2. }
  apply Z.divide_antisym_nonneg; try assumption; nia.
Qed.

Lemma period_squares_to_one (a N r : Z) :
  0 < r -> r mod 2 = 0 -> 1 < N -> a ^ r mod N = 1 ->
  (N | (a ^ (r / 2) - 1) * (a ^ (r / 2) + 1)).
Proof.
  intros Hr Heven HN Hone.
  assert (Hhalf : r = r / 2 + r / 2)
    by (pose proof (Z.div_mod r 2 ltac:(lia)); lia).
  replace ((a ^ (r / 2) - 1) * (a ^ (r / 2) + 1))
    with (a ^ (r / 2) * a ^ (r / 2) - 1) by ring.
  rewrite <- Z.pow_add_r by (apply Z.div_pos; lia).
  rewrite <- Hhalf.
  apply Z.mod_divide; [lia|].
  rewrite Zminus_mod, Hone, (Z.mod_small 1 N) by lia. reflexivity.
Qed.

(** X13.  Whenever [shor_algorithm] returns a pair, on whichever of its three
    paths, the product of the two numbers is [N]. *)
Theorem shor_algorithm_product
    (qasm_simulator : QuantumCircuit -> nat -> histogram)
    (N : Z) (w : world) (factor1 factor2 : Z) :
  fst (shor_algorithm qasm_simulator N w) = returns (factors factor1 factor2) ->
  factor1 * factor2 = N.
Proof.
  rewrite shor_algorithm_unfold.
  destruct (Z.eqb_spec (N mod 2) 0) as [Heven|Hodd].
  - cbn [fst]. intros H. injection H as <- <-.
    pose proof (Z.div_mod N 2 ltac:(lia)). lia.
  - destruct (Z.ltb_spec (N - 1) 2) as [Hsmall|Hrange]; [discriminate|].
    cbv zeta. set (a := drawn 2 (N - 1) w).
    destruct (Z.gtb_spec (Z.gcd a N) 1) as [Hshared|Hcoprime].
    + cbn [fst]. intros H. injection H as <- <-.
      destruct (Z.gcd_divide_r a N) as [k Hk].
      rewrite Hk at 2. rewrite Z.div_mul by lia. lia.
    + destruct (find_period qasm_simulator a N 8 1024 (after_draw w))
        as [[e|[r|]] w'] eqn:E; cbn [fst]; try discriminate.
      intros H. injection H as <- <-.
      assert (Hr : fst (find_period qasm_simulator a N 8 1024 (after_draw w))
                   = returns (Some r)) by (rewrite E; reflexivity).
      pose proof (find_period_accepts _ _ _ _ _ _ _ Hr) as Hvalid.
      apply valid_period_spec in Hvalid. destruct Hvalid as [Heven [_ Hone]].
      rewrite find_period_unfold in Hr.
      destruct (create_shors_circuit a N 8) as [e|qc]; cbn [fst] in Hr;
        [discriminate Hr|].
      apply extract_period_bound in Hr.
      apply gcd_pair_product; [lia | exact Hodd|].
      apply period_squares_to_one; try assumption; lia.
Qed.

Lemma shor_algorithm_product_witness :
  fst (shor_algorithm peaked_sampler 15 (constant_world 5))
  = returns (factors 3 5)
  /\ 3 * 5 = 15.
Proof.
  assert (Hrun : fst (shor_algorithm peaked_sampler 15 (constant_world 5))
                 = returns (factors 3 5)) by (vm_compute; reflexivity).
  split; [exact Hrun|].
  exact (shor_algorithm_product peaked_sampler 15 (constant_world 5) 3 5 Hrun).
Defined.

Lemma divides_minus_one (N y : Z) : 1 < N -> (N | y - 1) -> y mod N = 1.
Proof.
  intros HN [k Hk]. replace y with (1 + k * N) by lia.
  rewrite Z.mod_add by lia. apply Z.mod_small. lia.
Qed.

Lemma divides_plus_one (N y : Z) : 1 < N -> (N | y + 1) -> y mod N = N - 1.
Proof.
  intros HN [k Hk]. replace y with (N - 1 + (k - 1) * N) by lia.
  rewrite Z.mod_add by lia. apply Z.mod_small. lia.
Qed.

Lemma gcd_pair_proper (N y : Z) :
  1 < N -> N mod 2 <> 0 -> (N | (y - 1) * (y + 1)) ->
  y mod N <> 1 -> y mod N <> N - 1 ->
  1 < Z.gcd (y - 1) N < N /\ 1 < Z.gcd (y + 1) N < N.
Proof.
  intros HN Hodd Hdiv Hplus Hminus.
  pose proof (gcd_pair_product N y ltac:(lia) Hodd Hdiv) as Hprod.
  pose proof (Z.gcd_nonneg (y - 1) N) as H1.
  pose proof (Z.gcd_nonneg (y + 1) N) as H2.
  assert (Hn1 : Z.gcd (y - 1) N <> N).
  { intros E. apply Hplus, divides_minus_one; [exact HN|].
    rewrite <- E at 1. apply Z.gcd_divide_l. }
  assert (Hn2 : Z.gcd (y + 1) N <> N).
  { intros E. apply Hminus, divides_plus_one; [exact HN|].
    rewrite <- E at 1. apply Z.gcd_divide_l. }
  set (g1 := Z.gcd (y - 1) N) in *. set (g2 := Z.gcd (y + 1) N) in *.
  assert (Hg1 : g1 <> 0) by (intros E; rewrite E in Hprod; lia).
  assert (Hg2 : g2 <> 0) by (intros E; rewrite E, Z.mul_0_r in Hprod; lia).
  assert (Hg1' : g1 <> 1) by (intros E; rewrite E in Hprod; lia).
  assert (Hg2' : g2 <> 1) by (intros E; rewrite E in Hprod; lia).
  assert (g1 < N) by nia. assert (g2 < N) by nia. lia.
Qed.

(** X14.  The pair [shor_algorithm] returns consists of two proper factors of
    [N], each strictly between 1 and [N], on the shared-factor shortcut
    always, and after period finding whenever [a^(r//2) mod N] is not 1.
    The code does not test for that value: when it is 1 the pair is
    [(N, 1)]. *)
Theorem shor_algorithm_proper_factors
    (qasm_simulator : QuantumCircuit -> nat -> histogram) (N : Z) (w : world) :
  N mod 2 <> 0 -> 3 <= N ->
  let a := drawn 2 (N - 1) w in
  (1 < Z.gcd a N ->
     exists factor1 factor2,
       fst (shor_algorithm qasm_simulator N w) = returns (factors factor1 factor2)
       /\ 1 < factor1 < N /\ 1 < factor2 < N)
  /\ (forall r,
        Z.gcd a N <= 1 ->
        fst (find_period qasm_simulator a N 8 1024 (after_draw w))
        = returns (Some r) ->
        exists factor1 factor2,
          fst (shor_algorithm qasm_simulator N w)
          = returns (factors factor1 factor2)
          /\ (a ^ (r / 2) mod N <> 1 ->
              1 < factor1 < N /\ 1 < factor2 < N)
          /\ (a ^ (r / 2) mod N = 1 -> factor1 = N /\ factor2 = 1)).
Proof.
  intros Hodd HN a. pose proof Hodd as Hoddb. apply Z.eqb_neq in Hoddb.
  split.
  - intros Hshared.
    exists (Z.gcd a N), (N / Z.gcd a N).
    rewrite shor_algorithm_unfold, Hoddb.
    replace (N - 1 <? 2) with false by (symmetry; apply Z.ltb_ge; lia).
    cbv zeta. fold a.
    replace (Z.gcd a N >? 1) with true by (symmetry; apply Z.gtb_lt; exact Hshared).
    split; [reflexivity|].
    pose proof (drawn_in_range 2 (N - 1) w ltac:(lia)) as Ha. fold a in Ha.
    destruct (Z.gcd_divide_r a N) as [k Hk].
    assert (Hle : Z.gcd a N <= a) by (apply Z.divide_pos_le; [lia | apply Z.gcd_divide_l]).
    assert (Hq : N / Z.gcd a N = k)
      by (symmetry; apply Z.div_unique_exact; lia).
    rewrite Hq. nia.
  - intros r Hcoprime Hperiod.
    exists (Z.gcd (a ^ (r / 2) - 1) N), (Z.gcd (a ^ (r / 2) + 1) N).
    pose proof (find_period_accepts _ _ _ _ _ _ _ Hperiod) as Hvalid.
    apply valid_period_spec in Hvalid. destruct Hvalid as [Heven [Hminus Hone]].
    assert (Hr : 0 < r).
    { rewrite find_period_unfold in Hperiod.
      destruct (create_shors_circuit a N 8) as [e|qc]; cbn [fst] in Hperiod;
        [discriminate Hperiod|].
      apply extract_period_bound in Hperiod. lia. }
    pose proof (period_squares_to_one a N r Hr Heven ltac:(lia) Hone) as Hdiv.
    split; [|split].
    + rewrite shor_algorithm_unfold, Hoddb.
      replace (N - 1 <? 2) with false by (symmetry; apply Z.ltb_ge; lia).
      cbv zeta. fold a.
      replace (Z.gcd a N >? 1) with false
        by (symmetry; rewrite Z.gtb_ltb; apply Z.ltb_ge; exact Hcoprime).
      destruct (find_period qasm_simulator a N 8 1024 (after_draw w))
        as [[e|[r'|]] w']; cbn [fst] in Hperiod; try discriminate Hperiod.
      injection Hperiod as ->. reflexivity.
    + intros Hplus. apply gcd_pair_proper; try assumption; lia.
    + intros Hplus.
      assert (HNy : (N | a ^ (r / 2) - 1)).
      { apply Z.mod_divide; [lia|].
        rewrite Zminus_mod, Hplus, (Z.mod_small 1 N) by lia. reflexivity. }
      assert (Hg1 : Z.gcd (a ^ (r / 2) - 1) N = N).
      { apply Z.divide_antisym_nonneg; [apply Z.gcd_nonneg | lia
          | apply Z.gcd_divide_r | apply Z.gcd_greatest;
                                   [exact HNy | apply Z.divide_refl]]. }
      split; [exact Hg1|].
      pose proof (gcd_pair_product N (a ^ (r / 2)) ltac:(lia) Hodd Hdiv) as Hprod.
      rewrite Hg1 in Hprod. nia.
Qed.

Lemma shor_algorithm_proper_factors_witness :
  (exists factor1 factor2,
      fst (shor_algorithm peaked_sampler 21 (constant_world 1))
      = returns (factors factor1 factor2)
      /\ 1 < factor1 < 21 /\ 1 < factor2 < 21)
  /\ (exists factor1 factor2,
        fst (shor_algorithm eighth_sampler 15 (constant_world 5))
        = returns (factors factor1 factor2)
        /\ factor1 = 15 /\ factor2 = 1).
Proof.
  split.
  - apply (proj1 (shor_algorithm_proper_factors peaked_sampler 21
                    (constant_world 1) ltac:(discriminate) ltac:(lia))).
    reflexivity.
  - destruct (proj2 (shor_algorithm_proper_factors eighth_sampler 15
                       (constant_world 5) ltac:(discriminate) ltac:(lia)) 8)
      as [f1 [f2 [Hrun [_ Hdegenerate]]]].
    + discriminate.
    + vm_compute. reflexivity.
    + exists f1, f2. split; [exact Hrun|]. apply Hdegenerate. reflexivity.
Defined.

(** ** The orchestrator: what one attempt costs *)

(** X15.  One call of [shor_algorithm] never touches the random source itself,
    draws from it at most once, and runs the simulator at most once; when
    it does, it is on the 12-qubit circuit for the drawn base with 8
    counting qubits, for 1024 shots. *)
Theorem shor_algorithm_effects
    (qasm_simulator : QuantumCircuit -> nat -> histogram) (N : Z) (w : world) :
  let w' := snd (shor_algorithm qasm_simulator N w) in
  random_source w' = random_source w
  /\ (random_draws w' = random_draws w \/ random_draws w' = S (random_draws w))
  /\ (executions w' = executions w
      \/ exists qc,
           create_shors_circuit (drawn 2 (N - 1) w) N 8 = returns qc
           /\ num_qubits qc = 12%nat
           /\ executions w' = executions w ++ [(qc, 1024%nat)]).
Proof.
  cbv zeta. rewrite shor_algorithm_unfold.
  destruct (N mod 2 =? 0); [cbn; auto|].
  destruct (N - 1 <? 2); [cbn; auto|]. cbv zeta.
  destruct (Z.gcd _ N >? 1); [cbn; auto|].
  rewrite find_period_unfold.
  destruct (create_shors_circuit (drawn 2 (N - 1) w) N 8) as [e|qc] eqn:Hqc.
  - cbn. auto.
  - assert (Hqubits : num_qubits qc = 12%nat).
    { apply create_shors_circuit_shape in Hqc. destruct Hqc as [_ [_ ->]].
      reflexivity. }
    destruct (extract_period (qasm_simulator qc 1024%nat) _ N 8) as [e|[r|]];
      cbn [snd after_execution after_draw random_source random_draws executions];
      (split; [reflexivity|]; split; [right; reflexivity|];
       right; exists qc; split; [reflexivity|]; split;
       [exact Hqubits | reflexivity]).
Qed.

(** ** The example driver *)




(** ** The oracle: a base and its inverse undo each other *)

Lemma block_inverse (a s : Z) :
  In a admissible_bases -> 0 <= s < 16 ->
  In (inverse_mod15 a) admissible_bases
  /\ exists y, basis_run (c_amod15_block a) s = Some y /\ 0 <= y < 16
               /\ basis_run (c_amod15_block (inverse_mod15 a)) y = Some s.
Proof.
  intros Hin Hs. each_base Hin; each_state s Hs;
    (split; [vm_compute; tauto|]);
    (eexists; split; [vm_compute; reflexivity|]; split; [lia|]; reflexivity).
Qed.

Lemma oracle_gates_one (a : Z) : oracle_gates a 1 = c_amod15_block a.
Proof. unfold oracle_gates. cbn. apply app_nil_r. Qed.

(** X4.  The inverse modulo 15 of an admissible base is admissible, and the
    circuit built for it with the same power takes every basis state back
    to where the circuit of the base found it. *)
Theorem c_amod15_undone_by_inverse (a : Z) (p : nat) (s : Z) :
  In a admissible_bases -> 0 <= s < 16 ->
  In (inverse_mod15 a) admissible_bases
  /\ (a * inverse_mod15 a) mod 15 = 1
  /\ exists y, acts_on (c_amod15 a p) s = Some y
               /\ acts_on (c_amod15 (inverse_mod15 a) p) y = Some s.
Proof.
  intros Hin Hs.
  assert (Hinv : In (inverse_mod15 a) admissible_bases)
    by (apply (block_inverse a 0 Hin); lia).
  split; [exact Hinv|]. split; [apply inverse_mod15_spec, Hin|].
  rewrite acts_on_oracle_gates by exact Hin.
  revert s Hs. induction p as [|p IH]; intros s Hs.
  - exists s. split; [reflexivity|].
    rewrite acts_on_oracle_gates by exact Hinv. reflexivity.
  - destruct (IH s Hs) as [y [Hy Hback]].
    assert (Hyr : 0 <= y < 16).
    { destruct (c_amod15_closed a p s Hin Hs) as [y' [Hy' Hr]].
      rewrite acts_on_oracle_gates in Hy' by exact Hin. congruence. }
    destruct (block_inverse a y Hin Hyr) as [_ [z [Hz [Hzr Hzback]]]].
    exists z. split.
    + replace (S p) with (p + 1)%nat by lia.
      rewrite oracle_gates_add, basis_run_app, Hy, oracle_gates_one. exact Hz.
    + rewrite acts_on_oracle_gates by exact Hinv.
      replace (S p) with (1 + p)%nat by lia.
      rewrite oracle_gates_add, basis_run_app, oracle_gates_one, Hzback.
      rewrite <- acts_on_oracle_gates by exact Hinv. exact Hback.
Qed.

Lemma c_amod15_undone_by_inverse_witness :
  inverse_mod15 7 = 13
  /\ exists y, acts_on (c_amod15 7 3) 6 = Some y
               /\ acts_on (c_amod15 13 3) y = Some 6.
Proof.
  split; [reflexivity|].
  destruct (c_amod15_undone_by_inverse 7 3 6) as [_ [_ Hback]];
    [cbn; lia | lia | exact Hback].
Defined.
